(** * p-retry: the retry engine and its delay calculator

    A shallow embedding of [src/p-retry.ts] and of the helpers it calls
    ([calculateDelay], [createRetryContext], [AbortError],
    [throwIfAborted]), followed by the properties of the specification
    that were checked against it.

    Conventions of the embedding.
    - A JavaScript [number] is an extended rational: [NaN], the two
      infinities, or a finite value.  A product is rounded to the nearest
      double as binary64 does it (ties to even, gradual underflow, overflow
      to an infinity), and so is the sum [Math.random() + 1]; the other sums
      and differences the engine forms are of counters, clock readings and
      budgets, and are exact.  The power [**], which ECMAScript leaves to the
      implementation to approximate, is a function of the host.  The sign of
      zero is outside the model; the arithmetic of [NaN] and of the
      infinities follows ECMAScript.
    - An [async] function is a computation in the monad [M]: it reads and
      changes the state of the world (the clock, the cancellation signal,
      whatever the operation and the hooks touch), it logs the calls it makes
      to its collaborators, and it completes normally or by a throw (a
      rejected promise).
    - The [while] loop of [pRetry] may run for ever ([retries] may be
      [Infinity]); the loop is therefore defined with fuel, and results are
      stated for every sufficient amount of fuel. *)

From Stdlib Require Import ZArith QArith Qreduction Qround Qpower Bool List String Ascii Lia Lqa.
Import ListNotations.

Local Open Scope Z_scope.
Set Warnings "-register-all".

(** ** JavaScript numbers *)

Module JS.

Inductive number : Type :=
| NaN
| NegInf
| Fin (q : Q)
| PosInf.

Definition of_Z (z : Z) : number := Fin (inject_Z z).

Definition opp (a : number) : number :=
  match a with
  | NaN => NaN
  | NegInf => PosInf
  | Fin q => Fin (Qopp q)
  | PosInf => NegInf
  end.

(** *** Rounding to binary64 *)

(** The integer nearest to [n / d], for [d > 0]; a tie goes to the even
    one. *)
Definition round_half_even (n d : Z) : Z :=
  let k := n / d in
  match 2 * (n mod d) ?= d with
  | Lt => k
  | Gt => k + 1
  | Eq => if Z.even k then k else k + 1
  end.

(** The exponent [e] with [2 ^ e <= n / d < 2 ^ (e + 1)], for [n > 0]. *)
Definition binade (n : Z) (d : positive) : Z :=
  let e := Z.log2 n - Z.log2 (Zpos d) in
  if (if 0 <=? e then Zpos d * 2 ^ e <=? n else Zpos d <=? n * 2 ^ (- e))
  then e else e - 1.

(** [k * 2 ^ u] *)
Definition scaled (k u : Z) : Q :=
  if 0 <=? u then inject_Z (k * 2 ^ u) else k # Z.to_pos (2 ^ (- u)).

(** The integer nearest to [(n / d) / 2 ^ u]: the significand of [n / d]
    in units of [2 ^ u]. *)
Definition significand (n : Z) (d : positive) (u : Z) : Z :=
  if 0 <=? u then round_half_even n (Zpos d * 2 ^ u)
  else round_half_even (n * 2 ^ (- u)) (Zpos d).

(** The double nearest to a positive rational: 53 bits of significand, the
    unit in the last place never below [2 ^ -1074], and [Infinity] from
    [2 ^ 1024] on. *)
Definition nearest_double (q : Q) : number :=
  let n := Qnum q in
  let d := Qden q in
  let u := Z.max (binade n d - 52) (-1074) in
  let k := significand n d u in
  if (0 <=? u) && (2 ^ 1024 <=? k * 2 ^ u) then PosInf else Fin (Qred (scaled k u)).

(** The value binary64 gives to the exact result [a] of an operation. *)
Definition binary64 (a : number) : number :=
  match a with
  | Fin q =>
      let q := Qred q in
      match Qnum q ?= 0 with
      | Eq => Fin 0
      | Gt => nearest_double q
      | Lt => opp (nearest_double (Qopp q))
      end
  | _ => a
  end.

(** [a + b], exact: see the conventions at the head of the file. *)
Definition add (a b : number) : number :=
  match a, b with
  | NaN, _ | _, NaN => NaN
  | Fin x, Fin y => Fin (Qplus x y)
  | PosInf, NegInf | NegInf, PosInf => NaN
  | PosInf, _ | _, PosInf => PosInf
  | NegInf, _ | _, NegInf => NegInf
  end.

(** [a - b] *)
Definition sub (a b : number) : number := add a (opp b).

(** [a * b]: the product of two finite numbers is rounded, except that a
    product by one is the other factor as it is (binary64 has nothing to
    round there); an infinity times zero is [NaN], otherwise the signs
    multiply. *)
Definition mul (a b : number) : number :=
  match a, b with
  | NaN, _ | _, NaN => NaN
  | Fin x, Fin y =>
      if Qeq_bool x 1 then Fin y
      else if Qeq_bool y 1 then Fin x
      else binary64 (Fin (Qmult x y))
  | Fin x, PosInf | PosInf, Fin x =>
      match Qcompare x 0 with Eq => NaN | Lt => NegInf | Gt => PosInf end
  | Fin x, NegInf | NegInf, Fin x =>
      match Qcompare x 0 with Eq => NaN | Lt => PosInf | Gt => NegInf end
  | PosInf, PosInf | NegInf, NegInf => PosInf
  | PosInf, NegInf | NegInf, PosInf => NegInf
  end.

(** [a ** e] for an integral exponent [e] (the only use in the repository is
    [factor ** (attempt - 1)]), as [Number::exponentiate] of ECMAScript
    has it: [x ** 0] is [1] for every [x], [NaN] included; the powers of
    [NaN], of the infinities and of zero are fixed; for a base that is finite
    and not zero the result is the approximation [approx] of the
    implementation. *)
Definition pow (approx : Q -> Z -> number) (a : number) (e : Z) : number :=
  if e =? 0 then Fin 1%Q
  else match a with
       | NaN => NaN
       | PosInf => if 0 <? e then PosInf else Fin 0%Q
       | NegInf => if 0 <? e then (if Z.odd e then NegInf else PosInf) else Fin 0%Q
       | Fin q => if Qeq_bool q 0 then (if e <? 0 then PosInf else Fin 0%Q)
                  else approx q e
       end.

(** The best an implementation can do: the double nearest to the power. *)
Definition pow_nearest (q : Q) (e : Z) : number := binary64 (Fin (Qpower q e)).

(** The relational operators.  Every comparison with [NaN] is false. *)
Definition compare (a b : number) : option comparison :=
  match a, b with
  | NaN, _ | _, NaN => None
  | Fin x, Fin y => Some (Qcompare x y)
  | NegInf, NegInf | PosInf, PosInf => Some Eq
  | NegInf, _ | _, PosInf => Some Lt
  | _, NegInf | PosInf, _ => Some Gt
  end.

Definition lt (a b : number) : bool :=
  match compare a b with Some Lt => true | _ => false end.
Definition le (a b : number) : bool :=
  match compare a b with Some Lt | Some Eq => true | _ => false end.
Definition gt (a b : number) : bool :=
  match compare a b with Some Gt => true | _ => false end.
Definition ge (a b : number) : bool :=
  match compare a b with Some Gt | Some Eq => true | _ => false end.

(** [Math.max(a, b)] and [Math.min(a, b)]: [NaN] if either argument is. *)
Definition Math_max (a b : number) : number :=
  match a, b with
  | NaN, _ | _, NaN => NaN
  | _, _ => if lt a b then b else a
  end.

Definition Math_min (a b : number) : number :=
  match a, b with
  | NaN, _ | _, NaN => NaN
  | _, _ => if lt b a then b else a
  end.

(** [Math.round(a)]: the nearest integer, ties towards [+Infinity]. *)
Definition Math_round (a : number) : number :=
  match a with
  | Fin q => of_Z (Qfloor (Qplus q (1 # 2)))
  | _ => a
  end.

(** Equality of numbers up to the representation of a rational. *)
Definition eqv (a b : number) : Prop :=
  match a, b with
  | NaN, NaN | NegInf, NegInf | PosInf, PosInf => True
  | Fin x, Fin y => Qeq x y
  | _, _ => False
  end.

End JS.

Declare Scope js_scope.
Delimit Scope js_scope with js.
Bind Scope js_scope with JS.number.
Infix "+" := JS.add : js_scope.
Infix "-" := JS.sub : js_scope.
Infix "*" := JS.mul : js_scope.
Infix "<?" := JS.lt : js_scope.
Infix "<=?" := JS.le : js_scope.
Infix ">?" := JS.gt : js_scope.
Infix ">=?" := JS.ge : js_scope.
Infix "==" := JS.eqv (at level 70, no associativity) : js_scope.

Import JS.

(** ** JavaScript values that can be thrown *)

(** The classes of errors the engine tells apart with [instanceof]:
    [Error] itself, [TypeError], the library's [AbortError], and every other
    subclass of [Error] that is neither of the two (a [RangeError], a
    [DOMException], a class of the caller), given by its name. *)
Inductive ErrorClass : Type :=
| ErrorCls
| TypeErrorCls
| AbortErrorCls
| OtherCls (name : string).

(** A thrown value is an [Error] or any other value.  The engine looks at a
    value that is not an error only through its conversion to a string in a
    template literal, so such a value is given by that string, except for the
    primitives with a fixed conversion and for a [Symbol], which has none. *)
Inductive value : Type :=
| VUndefined
| VNull
| VBoolean (b : bool)
| VString (s : string)
| VSymbol (description : string)
| VOther (repr : string)
| VError (cls : ErrorClass) (message : string) (cause : option value)
         (carriesSignal : bool).

(** The result of awaiting a promise, once it is settled.  A promise of the
    operation or of a hook that never settles leaves [pRetry] pending for
    ever; such runs are not runs of the embedding, and nothing is stated
    about them. *)
Inductive Settled (A : Type) : Type :=
| Fulfilled (a : A)
| Rejected (e : value).
Arguments Fulfilled {A} a.
Arguments Rejected {A} e.

Definition instanceof_Error (v : value) : bool :=
  match v with VError _ _ _ _ => true | _ => false end.

Definition instanceof_TypeError (v : value) : bool :=
  match v with VError TypeErrorCls _ _ _ => true | _ => false end.

Definition instanceof_AbortError (v : value) : bool :=
  match v with VError AbortErrorCls _ _ _ => true | _ => false end.

Definition cause_of (v : value) : option value :=
  match v with VError _ _ c _ => c | _ => None end.

(** [new Error(message)] and [new TypeError(message)] *)
Definition new_Error (message : string) : value :=
  VError ErrorCls message None false.
Definition new_TypeError (message : string) : value :=
  VError TypeErrorCls message None false.

Definition class_name (c : ErrorClass) : string :=
  match c with
  | ErrorCls => "Error"
  | TypeErrorCls => "TypeError"
  | AbortErrorCls => "AbortError"
  | OtherCls n => n
  end.

(** [ToString(v)], as a template literal applies it.  A [Symbol] cannot be
    converted: the conversion throws a [TypeError]. *)
Definition ToString (v : value) : Settled string :=
  match v with
  | VUndefined => Fulfilled "undefined"
  | VNull => Fulfilled "null"
  | VBoolean b => Fulfilled (if b then "true" else "false")
  | VString s => Fulfilled s
  | VSymbol _ => Rejected (new_TypeError "Cannot convert a Symbol value to a string")
  | VOther r => Fulfilled r
  | VError c m _ _ =>
      Fulfilled (match m with
                 | EmptyString => class_name c
                 | _ => class_name c ++ ": " ++ m
                 end)
  end%string.

(** [v ?? d] *)
Definition nullish_or (v d : value) : value :=
  match v with
  | VUndefined | VNull => d
  | _ => v
  end.

(** ** src/errors/abort.error.ts *)

(** The part of an [AbortSignal] the repository reads. *)
Record AbortSignal : Type := { aborted : bool; reason : value }.

Module AbortError.

(** [new AbortError(message, { cause, signal })] *)
Definition new (message : string) (cause : option value) (signal : bool) : value :=
  VError AbortErrorCls message cause signal.

(** [AbortError.fromSignal(signal)] with its default message *)
Definition fromSignal (signal : AbortSignal) : value :=
  new "Aborted by signal" (Some (reason signal)) true.

(** [AbortError.fromError(error)] with its default message *)
Definition fromError (error : value) : value :=
  new "Aborted by error" (Some error) false.

End AbortError.

(** ** src/utils/throw-if-aborted.util.ts *)

Definition throwIfAborted (signal : option AbortSignal) : Settled unit :=
  match signal with
  | Some sg => if aborted sg then Rejected (AbortError.fromSignal sg) else Fulfilled tt
  | None => Fulfilled tt
  end.

(** ** The retry context (src/types/retry-context.interface.ts) *)

Record RetryContext : Type := {
  error : value;
  attemptNumber : Z;
  retriesLeft : number
}.

(** [createRetryContext]: the first attempt does not count as a retry. *)
Definition createRetryContext (error : value) (attemptNumber : Z) (retries : number)
  : RetryContext :=
  let retriesLeft := (retries - (of_Z attemptNumber - of_Z 1))%js in
  {| error := error; attemptNumber := attemptNumber; retriesLeft := retriesLeft |}.

(** ** The calls the engine makes, in the order it makes them *)

(** What the [async] function does to the outside world as it runs: it
    invokes the operation and the two hooks (each logged with the way the
    call ended), it arms and unrefs the timer of a delay, and, when the
    signal fires while that delay is pending, its listener clears the timer
    ([EvClearTimeout], with the time the timer was armed for).

    A listener stays with the signal after its delay has ended (line 116
    adds it with [once: true] and nothing removes it), so when the signal
    fires, the listeners of the delays that are over run as well, wherever
    the run is by then.  Each calls [clearTimeout] on a timer that has fired
    and [reject] on a promise that is resolved; neither does anything, and
    the run goes on as if they had not been called.  These calls come from
    the dispatch of the [abort] event, not from the control flow of the
    function: they are not in the trace, and the host accounts for them
    ([addEventListener] below). *)
Inductive Event : Type :=
| EvInput (attemptNumber : Z) (thrown : option value)
| EvOnFailedAttempt (context : RetryContext) (thrown : option value)
| EvShouldRetry (context : RetryContext) (answer : Settled bool)
| EvSetTimeout (ms : number)
| EvUnref
| EvClearTimeout (ms : number).

(** Which of the two callbacks of a delay runs first: the timer's [resolve]
    or the listener of the signal's [abort] event. *)
Inductive Race : Type := TimerFired | AbortFired.

(** ** src/types/options.interface.ts *)

(** The options as the caller passes them: every field is optional.  A
    callback runs in the world [W]; the signal is read from it. *)
Module Options.
Record t (W : Type) : Type := {
  onFailedAttempt : option (RetryContext -> W -> Settled unit * W);
  shouldRetry : option (RetryContext -> W -> Settled bool * W);
  retries : option number;
  factor : option number;
  minTimeout : option number;
  maxTimeout : option number;
  randomize : option bool;
  maxRetryTime : option number;
  signal : option (W -> AbortSignal);
  unref : option bool
}.
Arguments onFailedAttempt {W} _.
Arguments shouldRetry {W} _.
Arguments retries {W} _.
Arguments factor {W} _.
Arguments minTimeout {W} _.
Arguments maxTimeout {W} _.
Arguments randomize {W} _.
Arguments maxRetryTime {W} _.
Arguments signal {W} _.
Arguments unref {W} _.

(** [{}]: no option given. *)
Definition empty (W : Type) : t W :=
  {| onFailedAttempt := None; shouldRetry := None; retries := None;
     factor := None; minTimeout := None; maxTimeout := None;
     randomize := None; maxRetryTime := None; signal := None; unref := None |}.
End Options.

(** The host: the clock, the random source, its approximation of a power
    (of a base that is finite and not zero), the listeners the signal keeps,
    and the event loop that settles the promise of a delay. *)
Record Runtime (W : Type) : Type := {
  Date_now : W -> Z;
  Math_random : W -> number * W;
  Number_exponentiate : Q -> Z -> number;
  addEventListener : W -> W;
  timer_race : number -> W -> Race * W
}.
Arguments Date_now {W} _ _.
Arguments Math_random {W} _ _.
Arguments Number_exponentiate {W} _ _ _.
Arguments addEventListener {W} _ _.
Arguments timer_race {W} _ _ _.

(** [x ?? d] on an optional field *)
Definition default {A : Type} (x : option A) (d : A) : A :=
  match x with Some a => a | None => d end.

Definition double_quote : string := String (ascii_of_nat 34) EmptyString.

(** ** The monad of the engine *)

(** How a computation ends: normally, by a throw, or not within the fuel. *)
Inductive Completion (A : Type) : Type :=
| Normal (a : A)
| Throw (e : value)
| OutOfFuel.
Arguments Normal {A} a.
Arguments Throw {A} e.
Arguments OutOfFuel {A}.

(** What a completion throws, if it is a throw. *)
Definition thrown_by {A} (c : Completion A) : option value :=
  match c with Throw e => Some e | _ => None end.

Section Monad.
Context {W : Type}.

(** A computation maps the world to its completion, the world it leaves
    and the calls it made. *)
Definition M (A : Type) : Type := W -> Completion A * W * list Event.

Definition ret {A} (a : A) : M A := fun w => (Normal a, w, []).

Definition throw {A} (e : value) : M A := fun w => (Throw e, w, []).

Definition diverge {A} : M A := fun w => (OutOfFuel, w, []).

Definition bind {A B} (m : M A) (f : A -> M B) : M B :=
  fun w =>
    match m w with
    | (Normal a, w1, t1) => let '(r, w2, t2) := f a w1 in (r, w2, t1 ++ t2)
    | (Throw e, w1, t1) => (Throw e, w1, t1)
    | (OutOfFuel, w1, t1) => (OutOfFuel, w1, t1)
    end.

(** [try { m } catch (e) { handler(e) }] *)
Definition try_catch {A} (m : M A) (handler : value -> M A) : M A :=
  fun w =>
    match m w with
    | (Throw e, w1, t1) => let '(r, w2, t2) := handler e w1 in (r, w2, t1 ++ t2)
    | done => done
    end.

(** A synchronous step that may throw. *)
Definition lift {A} (r : Settled A) : M A :=
  match r with Fulfilled a => ret a | Rejected e => throw e end.

(** [await call], for a call whose promise settles, logged as [ev]. *)
Definition await {A} (call : W -> Settled A * W) (ev : Settled A -> Event) : M A :=
  fun w =>
    let '(r, w1) := call w in
    (match r with Fulfilled a => Normal a | Rejected e => Throw e end, w1, [ev r]).

Definition log (ev : Event) : M unit := fun w => (Normal tt, w, [ev]).

(** Reading the world, and a step of the world that is not logged. *)
Definition gets {A} (f : W -> A) : M A := fun w => (Normal (f w), w, []).

Definition step {A} (f : W -> A * W) : M A :=
  fun w => let '(a, w1) := f w in (Normal a, w1, []).
End Monad.

Notation "x <- m ;; k" := (bind m (fun x => k))
  (at level 61, m at next level, right associativity).
Notation "m ;; k" := (bind m (fun _ => k))
  (at level 61, right associativity).

Definition thrown_of {A} (r : Settled A) : option value :=
  match r with Fulfilled _ => None | Rejected e => Some e end.

(** ** The options after the defaults are merged in *)

Record MergedOptions (W : Type) : Type := {
  retries : number;
  factor : number;
  minTimeout : number;
  maxTimeout : number;
  maxRetryTime : number;
  randomize : bool;
  onFailedAttempt : RetryContext -> W -> Settled unit * W;
  shouldRetry : RetryContext -> W -> Settled bool * W;
  signal : option (W -> AbortSignal);
  unref : bool
}.
Arguments retries {W} _.
Arguments factor {W} _.
Arguments minTimeout {W} _.
Arguments maxTimeout {W} _.
Arguments maxRetryTime {W} _.
Arguments randomize {W} _.
Arguments onFailedAttempt {W} _.
Arguments shouldRetry {W} _.
Arguments signal {W} _.
Arguments unref {W} _.

(** The operation: it receives the number of the attempt. *)
Definition InputFunction (W T : Type) : Type := Z -> W -> Settled T * W.

Section Engine.
Context {W T : Type}.

(** [isNetworkError] is imported from [./utils], and its source is not at
    hand: the engine is verified for every such predicate. *)
Variable isNetworkError : value -> bool.
Variable host : Runtime W.

(** [Date.now()] and [Math.random()] *)
Definition now_call : M Z := gets (Date_now host).
Definition random_call : M number := step (Math_random host).

(** *** The delay calculator ([calculateDelay] of [./utils]) *)

Definition calculateDelay (attempt : Z) (options : MergedOptions W) : M number :=
  random <- (if randomize options
             then (r <- random_call ;; ret (binary64 (r + of_Z 1)%js))
             else ret (of_Z 1)) ;;
  let timeout :=
    Math_round (random * Math_max (minTimeout options) (of_Z 1)
                * pow (Number_exponentiate host) (factor options) (attempt - 1))%js in
  let timeout := Math_min timeout (maxTimeout options) in
  ret timeout.

(** *** src/p-retry.ts *)

(** [mergedOptions.signal?.throwIfAborted()]: the method of the platform,
    which throws the reason of the signal. *)
Definition signal_throwIfAborted (mergedOptions : MergedOptions W) : M unit :=
  match signal mergedOptions with
  | Some sg =>
      s <- gets sg ;;
      if aborted s then throw (reason s) else ret tt
  | None => ret tt
  end.

(** The promise of a delay: [setTimeout(resolve, finalDelay)], and, when
    there is a signal, a listener that is added to it, which clears the
    timer and rejects with
    [signal.reason ?? new Error('Operation aborted by user')].  The host
    says which of the two callbacks runs first, while the promise is
    pending.  When it is the timer's, the listener is left with the
    signal. *)
Definition delay (mergedOptions : MergedOptions W) (finalDelay : number) : M unit :=
  log (EvSetTimeout finalDelay) ;;
  (if unref mergedOptions then log EvUnref else ret tt) ;;
  match signal mergedOptions with
  | Some sg =>
      step (fun w => (tt, addEventListener host w)) ;;
      first <- step (timer_race host finalDelay) ;;
      match first with
      | AbortFired =>
          log (EvClearTimeout finalDelay) ;;
          s <- gets sg ;;
          throw (nullish_or (reason s) (new_Error "Operation aborted by user"))
      | TimerFired => ret tt
      end
  | None =>
      step (timer_race host finalDelay) ;;
      ret tt
  end.

(** The first statement of the [catch] block:
    [e instanceof Error ? e : new TypeError(`Non-error was thrown: ...`)].
    The template literal converts [e] to a string, which may throw. *)
Definition toError (e : value) : Settled value :=
  if instanceof_Error e then Fulfilled e
  else match ToString e with
       | Fulfilled s =>
           Fulfilled (new_TypeError
                        ("Non-error was thrown: " ++ double_quote ++ s ++ double_quote
                         ++ ". You should only throw errors."))
       | Rejected x => Rejected x
       end%string.

(** The condition under which the [catch] block rethrows [e] at once. *)
Definition isFatal (e error : value) : bool :=
  instanceof_AbortError e || (instanceof_TypeError e && negb (isNetworkError error)).

(** The errors the condition holds of: an [AbortError], and a
    [TypeError] that is not a network error. *)
Definition fatal (e : value) : Prop :=
  instanceof_AbortError e = true
  \/ (instanceof_TypeError e = true /\ isNetworkError e = false).

(** How one pass through the body of the loop ends when nothing is
    thrown out of it: [return result], or on to the next test of the
    condition. *)
Inductive Step : Type :=
| Return (result : T)
| Next.

(** The body of the [while] loop, after [attemptNumber++]. *)
Definition attempt (input : InputFunction W T) (mergedOptions : MergedOptions W)
    (startTime : Z) (maxRetryTime : number) (attemptNumber : Z) : M Step :=
  try_catch
    (signal_throwIfAborted mergedOptions ;;
     result <- await (input attemptNumber)
                 (fun r => EvInput attemptNumber (thrown_of r)) ;;
     signal_throwIfAborted mergedOptions ;;
     ret (Return result))
    (fun e =>
       error <- lift (toError e) ;;
       if isFatal e error then throw e
       else
         let context := createRetryContext error attemptNumber (retries mergedOptions) in
         await (onFailedAttempt mergedOptions context)
           (fun r => EvOnFailedAttempt context (thrown_of r)) ;;
         currentTime <- now_call ;;
         stop <- (if (of_Z currentTime - of_Z startTime >=? maxRetryTime)%js then ret true
                  else if (of_Z attemptNumber >=? retries mergedOptions + of_Z 1)%js
                       then ret true
                       else (go <- await (shouldRetry mergedOptions context)
                                     (EvShouldRetry context) ;;
                             ret (negb go))) ;;
         if stop : bool then throw error
         else
           delayTime <- calculateDelay attemptNumber mergedOptions ;;
           let timeLeft := (maxRetryTime - (of_Z currentTime - of_Z startTime))%js in
           if (timeLeft <=? of_Z 0)%js then throw error
           else
             let finalDelay := Math_min delayTime timeLeft in
             (if (finalDelay >? of_Z 0)%js then delay mergedOptions finalDelay else ret tt) ;;
             signal_throwIfAborted mergedOptions ;;
             ret Next).

(** The [while] loop, entered with the current [attemptNumber]. *)
Fixpoint loop (fuel : nat) (input : InputFunction W T) (mergedOptions : MergedOptions W)
    (startTime : Z) (maxRetryTime : number) (attemptNumber : Z) : M T :=
  match fuel with
  | O => diverge
  | S fuel' =>
      if (of_Z attemptNumber <? retries mergedOptions + of_Z 1)%js then
        let attemptNumber := attemptNumber + 1 in
        outcome <- attempt input mergedOptions startTime maxRetryTime attemptNumber ;;
        match outcome with
        | Return result => ret result
        | Next => loop fuel' input mergedOptions startTime maxRetryTime attemptNumber
        end
      else throw (new_Error "Retry attempts exhausted without throwing an error.")
  end.

Definition merge (options : Options.t W) : MergedOptions W :=
  {| retries := default (Options.retries options) (of_Z 10);
     factor := default (Options.factor options) (of_Z 2);
     minTimeout := default (Options.minTimeout options) (of_Z 1000);
     maxTimeout := default (Options.maxTimeout options) PosInf;
     maxRetryTime := default (Options.maxRetryTime options) PosInf;
     randomize := default (Options.randomize options) false;
     onFailedAttempt := default (Options.onFailedAttempt options)
                          (fun _ w => (Fulfilled tt, w));
     shouldRetry := default (Options.shouldRetry options)
                      (fun _ w => (Fulfilled true, w));
     signal := Options.signal options;
     unref := default (Options.unref options) false |}.

Definition pRetry (fuel : nat) (input : InputFunction W T) (options : Options.t W) : M T :=
  let mergedOptions := merge options in
  if match Options.retries options with Some _ => true | None => false end
     && (retries mergedOptions <? of_Z 0)%js
  then throw (new_TypeError "Expected `retries` to be a non-negative number.")
  else
    signal_throwIfAborted mergedOptions ;;
    let attemptNumber := 0 in
    startTime <- now_call ;;
    let maxRetryTime := maxRetryTime mergedOptions in
    loop fuel input mergedOptions startTime maxRetryTime attemptNumber.

(** src/make-retriable.ts: the wrapper captures the arguments. *)
Definition makeRetriable {Args : Type} (fn : Args -> W -> Settled T * W)
    (options : Options.t W) (fuel : nat) : Args -> M T :=
  fun args => pRetry fuel (fun _ => fn args) options.

End Engine.


(** ** The network-error heuristic *)

Module NetworkError.

Definition lower_ascii (c : ascii) : ascii :=
  let n := nat_of_ascii c in
  if (andb (Nat.leb 65 n) (Nat.leb n 90)) then ascii_of_nat (n + 32)%nat else c.

Fixpoint lower (s : string) : string :=
  match s with
  | EmptyString => EmptyString
  | String c r => String (lower_ascii c) (lower r)
  end.

Fixpoint includes (needle hay : string) : bool :=
  String.prefix needle hay
  || match hay with
     | EmptyString => false
     | String _ r => includes needle r
     end.

Definition allowList : list string :=
  [ "network error"; "failed to fetch"; "load failed";
    "networkerror when attempting to fetch resource";
    "the internet connection appears to be offline";
    "network request failed"; "fetch failed"; "terminated" ]%string.

(** Modelled from the spec: [isNetworkError] of [src/utils] is not among the
    sources.  Section 4.2 recognises a network error by looking in its
    message, without regard to case, for one of a fixed list of substrings. *)
Definition isNetworkError (error : value) : bool :=
  match error with
  | VError _ message _ _ => existsb (fun n => includes n (lower message)) allowList
  | _ => false
  end.

End NetworkError.

(** ** The delay without jitter *)

(** The closed form of the delay after the failure of attempt [i] when
    [randomize] is off: the base [max(minTimeout, 1)] times
    [factor ** (i - 1)], rounded, then capped by [maxTimeout]. *)
Definition plainDelay {W : Type} (host : Runtime W) (options : MergedOptions W) (i : Z)
  : number :=
  Math_min
    (Math_round (Math_max (minTimeout options) (of_Z 1)
                 * pow (Number_exponentiate host) (factor options) (i - 1))%js)
    (maxTimeout options).

(** The times the timers of a run are armed for, in the order of the
    run. *)
Fixpoint timers (trace : list Event) : list number :=
  match trace with
  | [] => []
  | EvSetTimeout ms :: rest => ms :: timers rest
  | _ :: rest => timers rest
  end.

(** ** Counting the invocations of the operation *)

Fixpoint invocations (trace : list Event) : nat :=
  match trace with
  | [] => 0
  | EvInput _ _ :: rest => S (invocations rest)
  | _ :: rest => invocations rest
  end.

(** ** Specifications of computations *)

(** [sat m w Q]: run from the world [w], the computation [m] ends in a
    completion, a world and a trace of calls that satisfy [Q]. *)
Definition sat {W A : Type} (m : M A) (w : W)
    (Q : Completion A -> W -> list Event -> Prop) : Prop :=
  let '(r, w', t) := m w in Q r w' t.

(** What the engine sees of a signal in the world [w]. *)
Definition signal_clear {W : Type} (signal : option (W -> AbortSignal)) (w : W) : Prop :=
  forall sg, signal = Some sg -> aborted (sg w) = false.

(** ** Worlds to run the engine in *)

Module Demo.

(** A world with a clock and one cancellation signal.  The signal keeps
    count of the listeners that wait for it to fire, and the world of the
    calls of [clearTimeout] they make when it does. *)
Record World : Type := {
  clock : Z;
  controller : AbortSignal;
  listeners : nat;
  cleared : nat
}.

Definition start : World :=
  {| clock := 0; controller := {| aborted := false; reason := VUndefined |};
     listeners := 0; cleared := 0 |}.

Definition tick (ms : Z) (w : World) : World :=
  {| clock := clock w + ms; controller := controller w;
     listeners := listeners w; cleared := cleared w |}.

(** [controller.abort(reason)]: the first call sets the reason and runs
    the listeners, each of which calls [clearTimeout] and is dropped. *)
Definition abort (r : value) (w : World) : World :=
  if aborted (controller w) then w
  else {| clock := clock w;
          controller := {| aborted := true; reason := r |};
          listeners := 0;
          cleared := cleared w + listeners w |}.

(** [controller.signal.addEventListener('abort', listener, { once: true })]:
    a listener added to a signal that has fired is never run. *)
Definition listen (w : World) : World :=
  if aborted (controller w) then w
  else {| clock := clock w; controller := controller w;
          listeners := S (listeners w); cleared := cleared w |}.

Definition millis (d : number) : Z :=
  match d with Fin q => Qfloor q | _ => 0 end.

(** A host in which every timer runs to its end. *)
Definition host : Runtime World :=
  {| Date_now := clock;
     Math_random := fun w => (Fin (1 # 2), w);
     Number_exponentiate := pow_nearest;
     addEventListener := listen;
     timer_race := fun d w => (TimerFired, tick (millis d) w) |}.

(** A host in which the user cancels ten milliseconds into every delay. *)
Definition cancellingHost : Runtime World :=
  {| Date_now := clock;
     Math_random := fun w => (Fin (1 # 2), w);
     Number_exponentiate := pow_nearest;
     addEventListener := listen;
     timer_race := fun d w => (AbortFired, abort (new_Error "shutdown") (tick 10 w)) |}.

Definition fixtureError : value := new_Error "fixture".

(** An operation that fails on every attempt. *)
Definition alwaysFails : InputFunction World string :=
  fun _ w => (Rejected fixtureError, tick 40 w).

(** An operation that gives up on its third attempt. *)
Definition abortsOnThird : InputFunction World string :=
  fun attemptNumber w =>
    if attemptNumber =? 3
    then (Rejected (AbortError.new "stop" None false), tick 40 w)
    else (Rejected fixtureError, tick 40 w).

(** An operation that throws a symbol. *)
Definition throwsSymbol : InputFunction World string :=
  fun _ w => (Rejected (VSymbol "fixture"), w).

(** An operation that throws a string. *)
Definition throwsString : InputFunction World string :=
  fun _ w => (Rejected (VString "foo"), w).

Definition options (retries : option number) (factor minTimeout : option number)
    (onFailedAttempt : option (RetryContext -> World -> Settled unit * World))
    (shouldRetry : option (RetryContext -> World -> Settled bool * World))
    (withSignal : bool) : Options.t World :=
  {| Options.onFailedAttempt := onFailedAttempt;
     Options.shouldRetry := shouldRetry;
     Options.retries := retries;
     Options.factor := factor;
     Options.minTimeout := minTimeout;
     Options.maxTimeout := None;
     Options.randomize := None;
     Options.maxRetryTime := None;
     Options.signal := if withSignal then Some controller else None;
     Options.unref := None |}.

(** A hook that throws on the second failure. *)
Definition hookError : value := new_Error "hook".
Definition throwingHook : RetryContext -> World -> Settled unit * World :=
  fun context w =>
    if attemptNumber context =? 2 then (Rejected hookError, w) else (Fulfilled tt, w).

(** A predicate that vetoes the retry after the second failure. *)
Definition retryOnce : RetryContext -> World -> Settled bool * World :=
  fun context w => (Fulfilled (attemptNumber context <? 2), w).

End Demo.

(** ** More operations, hooks and a world with a steady clock *)

Module Fixtures.

(** An operation that fails twice and then succeeds. *)
Definition succeedsOnThird : InputFunction Demo.World string :=
  fun attemptNumber w =>
    if attemptNumber =? 3
    then (Fulfilled "unicorn"%string, Demo.tick 40 w)
    else (Rejected Demo.fixtureError, Demo.tick 40 w).

(** An operation that succeeds at once, while the user cancels. *)
Definition succeedsWhileCancelled : InputFunction Demo.World string :=
  fun _ w => (Fulfilled "unicorn"%string, Demo.abort (new_Error "shutdown") w).

(** A predicate that throws. *)
Definition predicateError : value := new_Error "predicate".
Definition throwingPredicate : RetryContext -> Demo.World -> Settled bool * Demo.World :=
  fun _ w => (Rejected predicateError, w).

(** The options of [Demo.options], with [maxTimeout], [randomize],
    [maxRetryTime] and [unref] as well. *)
Definition options (W : Type) (retries factor minTimeout maxTimeout maxRetryTime : option number)
    (randomize unref : option bool) : Options.t W :=
  {| Options.onFailedAttempt := None;
     Options.shouldRetry := None;
     Options.retries := retries;
     Options.factor := factor;
     Options.minTimeout := minTimeout;
     Options.maxTimeout := maxTimeout;
     Options.randomize := randomize;
     Options.maxRetryTime := maxRetryTime;
     Options.signal := None;
     Options.unref := unref |}.

(** A world that is the time since the first reading of the clock, in
    milliseconds: the clock never reads below its first reading. *)
Definition steadyHost : Runtime nat :=
  {| Date_now := Z.of_nat;
     Math_random := fun w => (Fin (1 # 2), w);
     Number_exponentiate := pow_nearest;
     addEventListener := fun w => w;
     timer_race := fun d w => (TimerFired, (w + Z.to_nat (Demo.millis d))%nat) |}.

Definition steadyFailure : InputFunction nat string :=
  fun _ w => (Rejected Demo.fixtureError, (w + 40)%nat).

(** An operation that checks the controller with [throwIfAborted] before
    it does anything; its first failure makes the user cancel. *)
Definition checksSignal : InputFunction Demo.World string :=
  fun _ w =>
    match throwIfAborted (Some (Demo.controller w)) with
    | Rejected e => (Rejected e, w)
    | Fulfilled _ => (Rejected Demo.fixtureError, Demo.abort (new_Error "shutdown") w)
    end.

(** An operation that fails on every attempt, during the second of which
    the user cancels. *)
Definition cancelledInSecond : InputFunction Demo.World string :=
  fun attemptNumber w =>
    if attemptNumber =? 2
    then (Rejected Demo.fixtureError, Demo.abort (new_Error "shutdown") (Demo.tick 40 w))
    else (Rejected Demo.fixtureError, Demo.tick 40 w).

(** A host in which the first timer runs to its end and the user cancels
    ten milliseconds into the second delay. *)
Definition patientHost : Runtime Demo.World :=
  {| Date_now := Demo.clock;
     Math_random := fun w => (Fin (1 # 2), w);
     Number_exponentiate := pow_nearest;
     addEventListener := Demo.listen;
     timer_race := fun d w =>
       if (Demo.listeners w =? 2)%nat
       then (AbortFired, Demo.abort (new_Error "shutdown") (Demo.tick 10 w))
       else (TimerFired, Demo.tick (Demo.millis d) w) |}.

(** The calls of [clearTimeout] in a trace. *)
Definition clears (trace : list Event) : nat :=
  List.length
    (filter (fun ev => match ev with EvClearTimeout _ => true | _ => false end) trace).

(** A function of one argument that resolves at once. *)
Definition greets : string -> Demo.World -> Settled string * Demo.World :=
  fun name w => (Fulfilled (String.append "hello " name), Demo.tick 5 w).

End Fixtures.

(** ** Facts about numbers *)

Lemma compare_of_Z (a b : Z) : JS.compare (of_Z a) (of_Z b) = Some (a ?= b).
Proof.
  unfold JS.compare, of_Z, Qcompare; simpl. now rewrite !Z.mul_1_r.
Qed.

Lemma lt_of_Z (a b : Z) : (of_Z a <? of_Z b)%js = (a <? b).
Proof. unfold JS.lt. rewrite compare_of_Z. unfold Z.ltb. now destruct (a ?= b). Qed.

Lemma compare_succ_of_Z (a b : Z) :
  JS.compare (of_Z a) (of_Z b + of_Z 1)%js = Some (a ?= b + 1).
Proof.
  unfold JS.compare, JS.add, of_Z, Qcompare, Qplus; simpl.
  now rewrite !Z.mul_1_r.
Qed.

Lemma lt_succ_of_Z (a b : Z) : (of_Z a <? of_Z b + of_Z 1)%js = (a <? b + 1).
Proof. unfold JS.lt. rewrite compare_succ_of_Z. unfold Z.ltb. now destruct (a ?= b + 1). Qed.

Lemma ge_succ_of_Z (a b : Z) : (of_Z a >=? of_Z b + of_Z 1)%js = (a >=? b + 1).
Proof.
  unfold JS.ge. rewrite compare_succ_of_Z. unfold Z.geb. now destruct (a ?= b + 1).
Qed.

(** No elapsed time reaches [Infinity]. *)
Lemma ge_PosInf_finite (x y : Z) : (of_Z x - of_Z y >=? PosInf)%js = false.
Proof. reflexivity. Qed.

Lemma Math_min_PosInf (d : number) : Math_min d PosInf = d.
Proof. now destruct d. Qed.

(** ** Facts about traces *)

Lemma app_split {A : Type} (l1 l2 pre post : list A) (x : A) :
  l1 ++ l2 = pre ++ x :: post ->
  (exists mid, l1 = pre ++ x :: mid /\ post = mid ++ l2)
  \/ (exists pre', pre = l1 ++ pre' /\ l2 = pre' ++ x :: post).
Proof.
  revert pre. induction l1 as [|a l1 IH]; intros pre H.
  - right. exists pre. now split.
  - destruct pre as [|b pre]; simpl in H.
    + injection H as -> <-. left. exists l1. now split.
    + injection H as -> H. destruct (IH _ H) as [[mid [-> ->]]|[pre' [-> ->]]].
      * left. exists mid. now split.
      * right. exists pre'. now split.
Qed.

Lemma invocations_app (t1 t2 : list Event) :
  invocations (t1 ++ t2) = (invocations t1 + invocations t2)%nat.
Proof.
  induction t1 as [|ev t1 IH]; simpl; [reflexivity|].
  destruct ev; simpl; now rewrite IH.
Qed.

(** ** Rules for [sat], one for each construct of the monad *)

Section Rules.
Context {W : Type}.
Implicit Types w : W.

Lemma sat_run {A} (m : M A) w Q r w' t :
  sat m w Q -> m w = (r, w', t) -> Q r w' t.
Proof. unfold sat. intros H E. now rewrite E in H. Qed.

Lemma sat_weaken {A} (m : M A) w (Q Q' : Completion A -> W -> list Event -> Prop) :
  sat m w Q -> (forall r w' t, Q r w' t -> Q' r w' t) -> sat m w Q'.
Proof. unfold sat. destruct (m w) as [[r w'] t]. auto. Qed.

Lemma sat_ret {A} (a : A) w Q : Q (Normal a) w [] -> sat (ret a) w Q.
Proof. exact (fun H => H). Qed.

Lemma sat_throw {A} e w (Q : Completion A -> W -> list Event -> Prop) :
  Q (Throw e) w [] -> sat (throw e) w Q.
Proof. exact (fun H => H). Qed.

Lemma sat_diverge {A} w (Q : Completion A -> W -> list Event -> Prop) :
  Q OutOfFuel w [] -> sat diverge w Q.
Proof. exact (fun H => H). Qed.

Lemma sat_log ev w Q : Q (Normal tt) w [ev] -> sat (log ev) w Q.
Proof. exact (fun H => H). Qed.

Lemma sat_gets {A} (f : W -> A) w Q : Q (Normal (f w)) w [] -> sat (gets f) w Q.
Proof. exact (fun H => H). Qed.

Lemma sat_step {A} (f : W -> A * W) w Q :
  (forall a w1, f w = (a, w1) -> Q (Normal a) w1 []) -> sat (step f) w Q.
Proof. unfold sat, step. intros H. destruct (f w) as [a w1]. now apply H. Qed.

Lemma sat_await {A} (call : W -> Settled A * W) ev w Q :
  (forall a w1, call w = (Fulfilled a, w1) -> Q (Normal a) w1 [ev (Fulfilled a)]) ->
  (forall e w1, call w = (Rejected e, w1) -> Q (Throw e) w1 [ev (Rejected e)]) ->
  sat (await call ev) w Q.
Proof.
  unfold sat, await. intros H1 H2.
  destruct (call w) as [[a|e] w1]; [now apply H1 | now apply H2].
Qed.

Lemma sat_lift {A} (x : Settled A) w Q :
  (forall a, x = Fulfilled a -> Q (Normal a) w []) ->
  (forall e, x = Rejected e -> Q (Throw e) w []) ->
  sat (lift x) w Q.
Proof. destruct x; intros H1 H2; [now apply H1 | now apply H2]. Qed.

Lemma sat_bind {A B} (m : M A) (f : A -> M B) w Q :
  sat m w (fun r w1 t1 =>
             match r with
             | Normal a => sat (f a) w1 (fun r2 w2 t2 => Q r2 w2 (t1 ++ t2))
             | Throw e => Q (Throw e) w1 t1
             | OutOfFuel => Q OutOfFuel w1 t1
             end) ->
  sat (bind m f) w Q.
Proof.
  unfold sat, bind. destruct (m w) as [[[a|e|] w1] t1]; auto.
  destruct (f a w1) as [[r2 w2] t2]; auto.
Qed.

Lemma sat_try_catch {A} (m : M A) (handler : value -> M A) w Q :
  sat m w (fun r w1 t1 =>
             match r with
             | Throw e => sat (handler e) w1 (fun r2 w2 t2 => Q r2 w2 (t1 ++ t2))
             | _ => Q r w1 t1
             end) ->
  sat (try_catch m handler) w Q.
Proof.
  unfold sat, try_catch. destruct (m w) as [[[a|e|] w1] t1]; auto.
  destruct (handler e w1) as [[r2 w2] t2]; auto.
Qed.
End Rules.

(** One step of symbolic execution, and execution to the end. *)
Ltac wp_step :=
  lazymatch goal with
  | |- sat (bind _ _) _ _ => apply sat_bind
  | |- sat (try_catch _ _) _ _ => apply sat_try_catch
  | |- sat (ret _) _ _ => apply sat_ret
  | |- sat (throw _) _ _ => apply sat_throw
  | |- sat diverge _ _ => apply sat_diverge
  | |- sat (log _) _ _ => apply sat_log
  | |- sat (gets _) _ _ => apply sat_gets
  | |- sat (step _) _ _ => apply sat_step; intros ? ? ?
  | |- sat (await _ _) _ _ => apply sat_await; intros ? ? ?
  | |- sat (lift _) _ _ => apply sat_lift; intros ? ?
  | |- sat (if ?c then _ else _) _ _ => destruct c eqn:?
  | |- sat (match ?x with _ => _ end) _ _ => destruct x eqn:?
  end; cbv beta iota.

Ltac wp := repeat wp_step.

Ltac unfold_attempt :=
  unfold attempt, signal_throwIfAborted, calculateDelay, delay, now_call, random_call.

(** Where in an explicit trace an event can sit. *)
Ltac split_trace H :=
  repeat match type of H with
         | [] = ?p ++ _ :: _ => destruct p; discriminate H
         | _ :: _ = ?p ++ _ :: _ =>
             destruct p as [|? p]; cbn [app] in H;
             [ injection H; clear H; intros | injection H as ? H ]
         end.

(** ** The validation of [retries] *)

Section Validation.
Context {W T : Type}.
Variable isNetworkError : value -> bool.
Variable host : Runtime W.
Variable input : InputFunction W T.

(** C8. A negative [retries] makes [pRetry] fail with the configuration
    error before anything else happens: the validation is the first
    statement, so the rejection is there when the call returns, whatever
    the state of the signal and for any fuel; the operation is never
    invoked (the trace is empty and the world is untouched). *)
Theorem negative_retries_rejected (fuel : nat) (options : Options.t W) (r : number) (w : W) :
  Options.retries options = Some r ->
  (r <? of_Z 0)%js = true ->
  pRetry isNetworkError host fuel input options w
  = (Throw (new_TypeError "Expected `retries` to be a non-negative number."), w, []).
Proof.
  intros Hr Hneg. unfold pRetry, merge. rewrite Hr.
  cbn [retries default andb]. now rewrite Hneg.
Qed.

(** C10. [NaN] passes the validation, since [NaN < 0] is false, and fails
    the condition of the loop at once, since [0 < NaN + 1] is false too.
    So no run with [retries = NaN] ever invokes the operation or a hook,
    and unless the signal is already aborted when [pRetry] is called the
    run rejects with the error that follows the loop. *)
Theorem nan_retries_exhausted (fuel : nat) (options : Options.t W) (w : W) :
  Options.retries options = Some NaN ->
  (forall out w' tr,
      pRetry isNetworkError host fuel input options w = (out, w', tr) -> tr = [])
  /\ (signal_clear (Options.signal options) w ->
      pRetry isNetworkError host (S fuel) input options w
      = (Throw (new_Error "Retry attempts exhausted without throwing an error."), w, [])).
Proof.
  intros Hr. split.
  - intros out w' tr. unfold pRetry, merge. rewrite Hr.
    cbn [retries default andb JS.lt JS.compare signal].
    unfold signal_throwIfAborted, bind, gets, now_call, ret, throw. cbn [signal].
    destruct (Options.signal options) as [sg|]; [destruct (aborted (sg w))|];
      destruct fuel; cbn; intros H; now inversion H.
  - intros Hclear. unfold pRetry, merge. rewrite Hr.
    cbn [retries default andb JS.lt JS.compare signal].
    unfold signal_throwIfAborted, bind, gets, now_call, ret, throw. cbn [signal].
    destruct (Options.signal options) as [sg|] eqn:Hs; [|reflexivity].
    now rewrite (Hclear sg eq_refl).
Qed.
End Validation.

(** ** The loop: an induction principle *)

Section Loop.
Context {W T : Type}.
Variable isNetworkError : value -> bool.
Variable host : Runtime W.
Variable input : InputFunction W T.
Variable mergedOptions : MergedOptions W.
Variable startTime : Z.
Variable maxRetryTime : number.

Local Abbreviation attempt' :=
  (attempt (T:=T) isNetworkError host input mergedOptions startTime maxRetryTime).
Local Abbreviation loop' fuel :=
  (loop isNetworkError host fuel input mergedOptions startTime maxRetryTime).

(** A property [Ql] of the loop follows from a property [Qa] of one pass
    through its body, given an invariant [I] of the world at the test of
    the condition. *)
Lemma loop_sat (I : W -> Prop)
    (Qa : Z -> Completion Step -> W -> list Event -> Prop)
    (Ql : Z -> Completion T -> W -> list Event -> Prop) :
  (forall k w, I w ->
     sat (attempt' k) w (fun r w' t => Qa k r w' t /\ (r = Normal Next -> I w'))) ->
  (forall a w, Ql a OutOfFuel w []) ->
  (forall a w,
     Ql a (Throw (new_Error "Retry attempts exhausted without throwing an error.")) w []) ->
  (forall a w t e, Qa (a + 1) (Throw e) w t -> Ql a (Throw e) w t) ->
  (forall a w t, Qa (a + 1) OutOfFuel w t -> Ql a OutOfFuel w t) ->
  (forall a w t v, Qa (a + 1) (Normal (Return v)) w t -> Ql a (Normal v) w t) ->
  (forall a w1 t1 out w2 t2,
     (of_Z a <? retries mergedOptions + of_Z 1)%js = true ->
     Qa (a + 1) (Normal Next) w1 t1 -> Ql (a + 1) out w2 t2 -> Ql a out w2 (t1 ++ t2)) ->
  forall fuel a w, I w -> sat (loop' fuel a) w (Ql a).
Proof.
  intros Hbody Hfuel Hexit Hthrow Hdiv Hreturn Hnext.
  induction fuel as [|fuel IH]; intros a w HI; cbn [loop].
  - apply sat_diverge, Hfuel.
  - destruct (of_Z a <? retries mergedOptions + of_Z 1)%js eqn:Hguard.
    + apply sat_bind. eapply sat_weaken; [apply (Hbody (a + 1) w HI)|].
      cbv beta. intros [[v|]|e|] w1 t1 [Hq Hi].
      * apply sat_ret. rewrite app_nil_r. now apply Hreturn.
      * eapply sat_weaken; [apply (IH (a + 1) w1); now apply Hi|].
        cbv beta. intros out w2 t2 Hl. now apply (Hnext a w1 t1 out w2 t2).
      * now apply Hthrow.
      * now apply Hdiv.
    + apply sat_throw, Hexit.
Qed.
End Loop.

Section Entry.
Context {W T : Type}.
Variable isNetworkError : value -> bool.
Variable host : Runtime W.
Variable input : InputFunction W T.

(** A property of every run of [pRetry] follows from the property of the
    runs that stop before the loop, which call nothing, and of the loop
    entered with a clear signal. *)
Lemma pRetry_sat (Q : Completion T -> W -> list Event -> Prop) fuel
    (options : Options.t W) w :
  (forall e w1, Q (Throw e) w1 []) ->
  (forall w1 startTime,
      signal_clear (Options.signal options) w1 ->
      sat (loop isNetworkError host fuel input (merge options) startTime
             (maxRetryTime (merge options)) 0) w1 Q) ->
  sat (pRetry isNetworkError host fuel input options) w Q.
Proof.
  intros Hearly Hloop. unfold pRetry.
  destruct (_ && _); [apply sat_throw, Hearly|].
  unfold signal_throwIfAborted, now_call. cbn [signal merge].
  destruct (Options.signal options) as [sg|] eqn:Hsg; wp; try apply Hearly.
  - apply Hloop. intros sg' Heq. now injection Heq as <-.
  - apply Hloop. intros sg' Heq. discriminate Heq.
Qed.

Lemma thrown_by_Some {A} (c : Completion A) e : thrown_by c = Some e -> c = Throw e.
Proof. destruct c; cbn; congruence. Qed.

(** A property [P] of an event of the trace, of the events before and
    after it and of the throw that ends the run, holds in every run of
    [pRetry] if it holds in every pass through the body of the loop, is
    kept when a pass that ends without a throw is followed by more events,
    and does not depend on the events of earlier passes. *)
Lemma pRetry_split (options : Options.t W)
    (P : list Event -> Event -> list Event -> W -> option value -> Prop) :
  (forall pre ev mid t2 w1 w2 th, P pre ev mid w1 None -> P pre ev (mid ++ t2) w2 th) ->
  (forall t1 pre ev post w1 th, P pre ev post w1 th -> P (t1 ++ pre) ev post w1 th) ->
  (forall startTime k w,
      sat (attempt (T:=T) isNetworkError host input (merge options) startTime
             (maxRetryTime (merge options)) k) w
        (fun r w' t =>
           forall pre ev post, t = pre ++ ev :: post -> P pre ev post w' (thrown_by r))) ->
  forall fuel w out w' t,
    pRetry isNetworkError host fuel input options w = (out, w', t) ->
    forall pre ev post, t = pre ++ ev :: post -> P pre ev post w' (thrown_by out).
Proof.
  intros Hext Hshift Hbody fuel w out w' t Hrun.
  refine (sat_run _ _ (fun out w' t => forall pre ev post, t = pre ++ ev :: post ->
                                        P pre ev post w' (thrown_by out)) _ _ _ _ Hrun).
  apply pRetry_sat.
  - intros e w1 pre ev post H. destruct pre; discriminate H.
  - intros w1 startTime _.
    apply (loop_sat isNetworkError host input (merge options) startTime
             (maxRetryTime (merge options)) (fun _ => True)
             (fun _ r w' t => forall pre ev post, t = pre ++ ev :: post ->
                                                  P pre ev post w' (thrown_by r))
             (fun _ out w' t => forall pre ev post, t = pre ++ ev :: post ->
                                                    P pre ev post w' (thrown_by out)));
      try exact I.
    + intros k w2 _. eapply sat_weaken; [apply Hbody|]. cbv beta. now split.
    + intros a w2 pre ev post H. destruct pre; discriminate H.
    + intros a w2 pre ev post H. destruct pre; discriminate H.
    + auto.
    + auto.
    + auto.
    + intros a w2 t1 out2 w3 t2 _ H1 H2 pre ev post Hs.
      destruct (app_split _ _ _ _ _ Hs) as [(mid & -> & ->)|(pre' & -> & ->)].
      * eapply Hext. exact (H1 _ _ _ eq_refl).
      * apply Hshift. exact (H2 _ _ _ eq_refl).
Qed.
End Entry.

(** ** One pass through the body of the loop *)

Lemma toError_of_Error (e : value) : instanceof_Error e = true -> toError e = Fulfilled e.
Proof. unfold toError. now intros ->. Qed.

Section Body.
Context {W T : Type}.
Variable isNetworkError : value -> bool.
Variable host : Runtime W.
Variable input : InputFunction W T.
Variable mergedOptions : MergedOptions W.
Variable startTime : Z.
Variable maxRetryTime : number.

Local Abbreviation attempt' :=
  (attempt (T:=T) isNetworkError host input mergedOptions startTime maxRetryTime).

Lemma fatal_isFatal e :
  fatal isNetworkError e -> toError e = Fulfilled e /\ isFatal isNetworkError e e = true.
Proof.
  unfold fatal, isFatal.
  intros [H|[H1 H2]]; (split; [apply toError_of_Error; now destruct e as [| | | | | |[]]|]).
  - now rewrite H.
  - rewrite H1, H2. apply orb_true_r.
Qed.

Ltac signal_contradiction :=
  exfalso;
  match goal with
  | Hc : signal_clear (Some ?sg) _ |- _ => specialize (Hc sg eq_refl); congruence
  | Hc : signal_clear _ _, Hs : signal _ = Some ?sg |- _ =>
      specialize (Hc sg Hs); congruence
  end.

(** Entered with a clear signal, a pass invokes the operation exactly
    once, first of all, and is left for the next pass with a clear signal. *)
Lemma attempt_invokes_once k w :
  signal_clear (signal mergedOptions) w ->
  sat (attempt' k) w (fun r w' t =>
    (exists x rest, t = EvInput k x :: rest /\ invocations rest = 0%nat)
    /\ (r = Normal Next -> signal_clear (signal mergedOptions) w')).
Proof.
  intros Hclear. unfold_attempt. wp.
  all: try signal_contradiction.
  all: cbn [app thrown_of]; (split; [eexists _, _; split; reflexivity|]).
  all: try discriminate.
  all: intros _ sg Hsg; congruence.
Qed.

(** A fatal error thrown by the operation ends the pass there and then,
    with that very error. *)
Lemma attempt_fatal k w :
  sat (attempt' k) w (fun r _ t =>
    forall pre k' e post,
      t = pre ++ EvInput k' (Some e) :: post -> fatal isNetworkError e ->
      post = [] /\ r = Throw e).
Proof.
  unfold_attempt. wp.
  all: cbn [app thrown_of]; intros pre k' e' post Hs Hf; split_trace Hs; try discriminate.
  all: destruct (fatal_isFatal _ Hf) as [Ht Hfat].
  all: split; congruence.
Qed.

(** A failure that is not fatal is reported to [onFailedAttempt] before
    anything else happens, and a throw of the hook ends the pass. *)
Lemma attempt_notifies k w :
  sat (attempt' k) w (fun r _ t =>
    forall pre k' e post err,
      t = pre ++ EvInput k' (Some e) :: post ->
      toError e = Fulfilled err -> isFatal isNetworkError e err = false ->
      exists h post',
        post = EvOnFailedAttempt (createRetryContext err k' (retries mergedOptions)) h
                 :: post'
        /\ (forall x, h = Some x -> post' = [] /\ r = Throw x)).
Proof.
  unfold_attempt. wp.
  all: cbn [app thrown_of]; intros pre k' e' post err Hs Hte Hnf;
    split_trace Hs; try discriminate.
  all: subst; try congruence.
  all: match goal with
       | H : toError ?e = Fulfilled ?a, H' : toError ?e = Fulfilled ?b |- _ =>
           rewrite H in H'; injection H' as <-
       end.
  all: eexists _, _; (split; [reflexivity|]); intros x Hx;
    [> (discriminate Hx || (injection Hx as <-; now split)) ..].
Qed.

(** When [shouldRetry] answers [false] the pass ends there, by a throw of
    the error in the context. *)
Lemma attempt_vetoed k w :
  sat (attempt' k) w (fun r _ t =>
    forall pre context post,
      t = pre ++ EvShouldRetry context (Fulfilled false) :: post ->
      post = [] /\ r = Throw (error context)
      /\ exists pre', pre = pre' ++ [EvOnFailedAttempt context None]).
Proof.
  unfold_attempt. wp.
  all: cbn [app thrown_of]; intros pre context post Hs; split_trace Hs; try discriminate.
  all: subst; try discriminate.
  all: repeat split; try reflexivity.
  all: first [ now exists [] | now eexists [_] ].
Qed.

(** When the signal fires while the delay of a pass is pending, the
    listener of that delay clears the timer that has just been armed, and
    the pass ends by a throw of the reason of the signal itself (or of a
    plain [Error] if the reason is nullish). *)
Lemma attempt_cancelled k w :
  sat (attempt' k) w (fun r w' t =>
    forall pre ms post,
      t = pre ++ EvClearTimeout ms :: post ->
      post = []
      /\ (exists pre',
            pre = pre' ++ EvSetTimeout ms
                          :: (if unref mergedOptions then [EvUnref] else []))
      /\ exists sg, signal mergedOptions = Some sg
           /\ r = Throw (nullish_or (reason (sg w'))
                           (new_Error "Operation aborted by user"))).
Proof.
  unfold_attempt. wp.
  all: cbn [app thrown_of]; intros pre ms post Hs; split_trace Hs; try discriminate.
  all: subst; (split; [reflexivity|]); split;
    [ first [ now eexists [_; _] | now eexists [_; _; _] ]
    | eexists; split; reflexivity ].
Qed.

(** A symbol thrown by the operation cannot be put into the message of
    the wrapping error: the conversion throws in the [catch] block, and
    that [TypeError] ends the pass before any hook is called. *)
Lemma attempt_symbol k w :
  sat (attempt' k) w (fun r _ t =>
    forall pre k' description post,
      t = pre ++ EvInput k' (Some (VSymbol description)) :: post ->
      post = []
      /\ r = Throw (new_TypeError "Cannot convert a Symbol value to a string")).
Proof.
  unfold_attempt. wp.
  all: cbn [app thrown_of]; intros pre k' description post Hs;
    split_trace Hs; try discriminate.
  all: subst; try discriminate.
  all: match goal with
       | H : toError (VSymbol _) = _ |- _ => cbn in H; try discriminate H
       end.
  all: match goal with
       | H : Rejected _ = Rejected _ |- _ => injection H as <-
       end; now split.
Qed.
End Body.

(** ** Runs of [pRetry] *)

Section Runs.
Context {W T : Type}.
Variable isNetworkError : value -> bool.
Variable host : Runtime W.
Variable input : InputFunction W T.

Local Abbreviation pRetry' := (pRetry (T:=T) isNetworkError host).

(** The attempts are numbered from one, in the order of the invocations. *)
Lemma invocations_numbered fuel (options : Options.t W) w out w' tr :
  pRetry' fuel input options w = (out, w', tr) ->
  forall pre k x post,
    tr = pre ++ EvInput k x :: post -> k = 1 + Z.of_nat (invocations pre).
Proof.
  intros Hrun.
  refine (sat_run _ _ (fun _ _ t => forall pre k x post, t = pre ++ EvInput k x :: post ->
            k = 1 + Z.of_nat (invocations pre)) _ _ _ _ Hrun).
  assert (Hone : forall a t, (exists x rest, t = EvInput (a + 1) x :: rest
                                             /\ invocations rest = 0%nat) ->
            forall pre k x post, t = pre ++ EvInput k x :: post ->
              k = a + 1 + Z.of_nat (invocations pre)).
  { intros a t (x0 & rest & -> & Hrest) pre k x post Hs.
    destruct pre as [|ev pre]; cbn [app] in Hs; injection Hs as ? Hs; subst.
    - cbn. lia.
    - rewrite invocations_app in Hrest. cbn in Hrest. lia. }
  apply pRetry_sat.
  - intros e w1 pre k x post H. destruct pre; discriminate H.
  - intros w1 startTime Hclear.
    apply (loop_sat isNetworkError host input (merge options) startTime
             (maxRetryTime (merge options))
             (signal_clear (signal (merge options)))
             (fun k _ _ t => exists x rest, t = EvInput k x :: rest
                                           /\ invocations rest = 0%nat)
             (fun a _ _ t => forall pre k x post, t = pre ++ EvInput k x :: post ->
                k = a + 1 + Z.of_nat (invocations pre)));
      try exact Hclear; eauto.
    + intros k w2 Hc. apply attempt_invokes_once, Hc.
    + intros a w2 pre k x post H. destruct pre; discriminate H.
    + intros a w2 pre k x post H. destruct pre; discriminate H.
    + intros a w2 t1 out2 w3 t2 _ H1 H2 pre k x post Hs.
      destruct (app_split _ _ _ _ _ Hs) as [(mid & Hm & ->)|(pre' & -> & ->)].
      * now apply (Hone a t1 H1 pre k x mid).
      * destruct H1 as (x0 & rest & -> & Hrest).
        rewrite (H2 _ _ _ _ eq_refl), invocations_app. cbn [invocations].
        rewrite Hrest. lia.
Qed.

(** C2. An [AbortError] thrown by the operation, and a [TypeError] that is
    not recognised as a network error, is rethrown by the [catch] block
    before anything else: in every run, the failed invocation is the last
    call of the trace (no context is built, neither hook is called, no timer
    is armed, no further attempt is made), the run rejects with the
    very value that was thrown, and an error thrown on attempt [k] leaves
    exactly [k] invocations of the operation. *)
Theorem fatal_error_propagates fuel (options : Options.t W) w out w' tr pre k e post :
  pRetry' fuel input options w = (out, w', tr) ->
  tr = pre ++ EvInput k (Some e) :: post ->
  fatal isNetworkError e ->
  post = [] /\ out = Throw e /\ Z.of_nat (invocations tr) = k.
Proof.
  intros Hrun Hs Hf.
  pose proof (invocations_numbered _ _ _ _ _ _ Hrun _ _ _ _ Hs) as Hk.
  assert (H : forall e', EvInput k (Some e) = EvInput k (Some e') ->
              fatal isNetworkError e' -> post = [] /\ thrown_by out = Some e').
  { refine (pRetry_split isNetworkError host input options
              (fun _ ev post _ th => forall e', ev = EvInput k (Some e') ->
                 fatal isNetworkError e' -> post = [] /\ th = Some e')
              _ _ _ fuel w out w' tr Hrun pre _ post Hs).
    - intros ? ? ? ? ? ? ? H e' He Hf'. destruct (H e' He Hf') as [_ H']. discriminate H'.
    - auto.
    - intros startTime k0 w0. eapply sat_weaken; [apply attempt_fatal|]. cbv beta.
      intros r w1 t H pre0 ev post0 Hs0 e' -> Hf'.
      destruct (H _ _ _ _ Hs0 Hf') as [-> ->]. now split. }
  destruct (H e eq_refl Hf) as [-> Ho]. repeat split.
  - now apply thrown_by_Some.
  - subst tr. rewrite invocations_app. cbn [invocations]. lia.
Qed.

(** C5. Whenever an invocation of the operation fails with a value that
    the [catch] block turns into an error [err] and does not rethrow, the
    next call of the run is [onFailedAttempt], with the retry context of
    that failure; it comes before the test of the budgets and before
    [shouldRetry], whatever is left of the retries and of the time.  If the
    hook throws, nothing follows and the run rejects with what the hook
    threw. *)
Theorem onFailedAttempt_runs_first fuel (options : Options.t W) w out w' tr
    pre k e post err :
  pRetry' fuel input options w = (out, w', tr) ->
  tr = pre ++ EvInput k (Some e) :: post ->
  toError e = Fulfilled err ->
  isFatal isNetworkError e err = false ->
  exists h post',
    post = EvOnFailedAttempt (createRetryContext err k (retries (merge options))) h :: post'
    /\ (forall x, h = Some x -> post' = [] /\ out = Throw x).
Proof.
  intros Hrun Hs Hte Hnf.
  assert (H : forall e' err', EvInput k (Some e) = EvInput k (Some e') ->
              toError e' = Fulfilled err' -> isFatal isNetworkError e' err' = false ->
              exists h post',
                post = EvOnFailedAttempt
                         (createRetryContext err' k (retries (merge options))) h :: post'
                /\ (forall x, h = Some x -> post' = [] /\ thrown_by out = Some x)).
  { refine (pRetry_split isNetworkError host input options
              (fun _ ev post _ th => forall e' err', ev = EvInput k (Some e') ->
                 toError e' = Fulfilled err' -> isFatal isNetworkError e' err' = false ->
                 exists h post',
                   post = EvOnFailedAttempt
                            (createRetryContext err' k (retries (merge options))) h :: post'
                   /\ (forall x, h = Some x -> post' = [] /\ th = Some x))
              _ _ _ fuel w out w' tr Hrun pre _ post Hs).
    - intros pre0 ev mid t2 w1 w2 th H e' err' He H1 H2.
      destruct (H e' err' He H1 H2) as (h & post' & -> & Hh).
      exists h, (post' ++ t2). split; [reflexivity|].
      intros x ->. destruct (Hh x eq_refl) as [_ Hx]. discriminate Hx.
    - auto.
    - intros startTime k0 w0. eapply sat_weaken; [apply attempt_notifies|]. cbv beta.
      intros r w1 t H pre0 ev post0 Hs0 e' err' -> H1 H2.
      destruct (H _ _ _ _ _ Hs0 H1 H2) as (h & post' & -> & Hh).
      exists h, post'. split; [reflexivity|].
      intros x Hx. destruct (Hh x Hx) as [-> ->]. now split. }
  destruct (H e err eq_refl Hte Hnf) as (h & post' & -> & Hh).
  exists h, post'. split; [reflexivity|].
  intros x Hx. destruct (Hh x Hx) as [-> Ho]. split; [reflexivity|].
  now apply thrown_by_Some.
Qed.

(** C7. Whenever [shouldRetry] resolves to [false], that call is the last
    of the run: no timer is armed and the operation is not invoked again,
    whatever the value of [retries].  The run rejects with the error of the
    context the predicate was asked about, which is the context
    [onFailedAttempt] has just returned from, and not with an error of a
    hook. *)
Theorem shouldRetry_false_stops fuel (options : Options.t W) w out w' tr
    pre context post :
  pRetry' fuel input options w = (out, w', tr) ->
  tr = pre ++ EvShouldRetry context (Fulfilled false) :: post ->
  post = [] /\ out = Throw (error context)
  /\ exists pre', pre = pre' ++ [EvOnFailedAttempt context None].
Proof.
  intros Hrun Hs.
  assert (H : forall c, EvShouldRetry context (Fulfilled false)
                        = EvShouldRetry c (Fulfilled false) ->
              post = [] /\ thrown_by out = Some (error c)
              /\ exists pre', pre = pre' ++ [EvOnFailedAttempt c None]).
  { refine (pRetry_split isNetworkError host input options
              (fun pre ev post _ th => forall c, ev = EvShouldRetry c (Fulfilled false) ->
                 post = [] /\ th = Some (error c)
                 /\ exists pre', pre = pre' ++ [EvOnFailedAttempt c None])
              _ _ _ fuel w out w' tr Hrun pre _ post Hs).
    - intros ? ? ? ? ? ? ? H c Hc. destruct (H c Hc) as (_ & H' & _). discriminate H'.
    - intros t1 pre0 ev post0 w1 th H c Hc.
      destruct (H c Hc) as (-> & -> & pre' & ->). repeat split.
      exists (t1 ++ pre'). now rewrite app_assoc.
    - intros startTime k0 w0. eapply sat_weaken; [apply attempt_vetoed|]. cbv beta.
      intros r w1 t H pre0 ev post0 Hs0 c ->.
      destruct (H _ _ _ Hs0) as (-> & -> & Hp). now repeat split. }
  destruct (H context eq_refl) as (-> & Ho & Hp). repeat split; [|assumption].
  now apply thrown_by_Some.
Qed.

(** C6, as the code has it.  When the signal fires while a delay is
    pending, the listener of that delay clears the timer that has just been
    armed (nothing but the [unref] of that timer lies between the two
    calls), nothing is called after that, and the run rejects with
    [signal.reason] itself (with a plain [Error] if the reason is nullish),
    not with an [AbortError] that has the reason as its cause.  The
    listeners that the delays before it have left with the signal run in the
    same dispatch and clear timers that have fired: they are no calls of
    the trace, and the statement is not about them. *)
Theorem abort_during_delay fuel (options : Options.t W) w out w' tr pre ms post :
  pRetry' fuel input options w = (out, w', tr) ->
  tr = pre ++ EvClearTimeout ms :: post ->
  post = []
  /\ (exists pre',
        pre = pre' ++ EvSetTimeout ms
                      :: (if unref (merge options) then [EvUnref] else []))
  /\ exists sg, Options.signal options = Some sg
       /\ out = Throw (nullish_or (reason (sg w')) (new_Error "Operation aborted by user")).
Proof.
  intros Hrun Hs.
  assert (H : forall d, EvClearTimeout ms = EvClearTimeout d ->
              post = []
              /\ (exists pre',
                    pre = pre' ++ EvSetTimeout d
                                  :: (if unref (merge options) then [EvUnref] else []))
              /\ exists sg, Options.signal options = Some sg
                   /\ thrown_by out
                      = Some (nullish_or (reason (sg w'))
                                (new_Error "Operation aborted by user"))).
  { refine (pRetry_split isNetworkError host input options
              (fun pre ev post w' th => forall d, ev = EvClearTimeout d ->
                 post = []
                 /\ (exists pre',
                       pre = pre' ++ EvSetTimeout d
                                     :: (if unref (merge options) then [EvUnref] else []))
                 /\ exists sg, Options.signal options = Some sg
                      /\ th = Some (nullish_or (reason (sg w'))
                                      (new_Error "Operation aborted by user")))
              _ _ _ fuel w out w' tr Hrun pre _ post Hs).
    - intros ? ? ? ? ? ? ? H d He. destruct (H d He) as (_ & _ & sg & _ & H'). discriminate H'.
    - intros t1 pre0 ev post0 w1 th H d He.
      destruct (H d He) as (-> & [pre' ->] & Hsg). repeat split; [|assumption].
      exists (t1 ++ pre'). now rewrite app_assoc.
    - intros startTime k0 w0. eapply sat_weaken; [apply attempt_cancelled|]. cbv beta.
      intros r w1 t H pre0 ev post0 Hs0 d ->.
      destruct (H _ _ _ Hs0) as (-> & Hpre & sg & Hsg & ->). repeat split; [assumption|].
      now exists sg. }
  destruct (H ms eq_refl) as (-> & Hpre & sg & Hsg & Ho). repeat split; [assumption|].
  exists sg. split; [assumption|]. now apply thrown_by_Some.
Qed.

(** C9, as the code has it.  A [Symbol] thrown by the operation is not
    wrapped: building the message of the wrapper throws, so the failed
    invocation is the last call of the run, neither hook is reached, and
    the run rejects with the [TypeError] of the conversion. *)
Theorem symbol_is_not_wrapped fuel (options : Options.t W) w out w' tr
    pre k description post :
  pRetry' fuel input options w = (out, w', tr) ->
  tr = pre ++ EvInput k (Some (VSymbol description)) :: post ->
  post = [] /\ out = Throw (new_TypeError "Cannot convert a Symbol value to a string").
Proof.
  intros Hrun Hs.
  assert (H : forall d, EvInput k (Some (VSymbol description)) = EvInput k (Some (VSymbol d)) ->
              post = []
              /\ thrown_by out
                 = Some (new_TypeError "Cannot convert a Symbol value to a string")).
  { refine (pRetry_split isNetworkError host input options
              (fun _ ev post _ th => forall d, ev = EvInput k (Some (VSymbol d)) ->
                 post = []
                 /\ th = Some (new_TypeError "Cannot convert a Symbol value to a string"))
              _ _ _ fuel w out w' tr Hrun pre _ post Hs).
    - intros ? ? ? ? ? ? ? H d Hd. destruct (H d Hd) as [_ H']. discriminate H'.
    - auto.
    - intros startTime k0 w0. eapply sat_weaken; [apply attempt_symbol|]. cbv beta.
      intros r w1 t H pre0 ev post0 Hs0 d ->.
      destruct (H _ _ _ _ Hs0) as [-> ->]. now split. }
  destruct (H description eq_refl) as [-> Ho]. split; [reflexivity|].
  now apply thrown_by_Some.
Qed.
End Runs.

(** ** An operation that always fails *)

Lemma budget_never_spent (x y : Z) : (PosInf - (of_Z x - of_Z y) <=? of_Z 0)%js = false.
Proof. reflexivity. Qed.

Section AlwaysFailing.
Context {W T : Type}.
Variable isNetworkError : value -> bool.
Variable host : Runtime W.
Variable input : InputFunction W T.
Variable mergedOptions : MergedOptions W.
Variable startTime : Z.
Variable N : Z.

Hypothesis Hretries : retries mergedOptions = of_Z N.
Hypothesis Hsignal : signal mergedOptions = None.
Hypothesis Hfails :
  forall k w, exists e w1 err,
    input k w = (Rejected e, w1)
    /\ toError e = Fulfilled err /\ isFatal isNetworkError e err = false.
Hypothesis Hhook :
  forall c w, exists w1, onFailedAttempt mergedOptions c w = (Fulfilled tt, w1).
Hypothesis HshouldRetry :
  forall c w, exists w1, shouldRetry mergedOptions c w = (Fulfilled true, w1).

Local Abbreviation attempt' :=
  (attempt (T:=T) isNetworkError host input mergedOptions startTime PosInf).
Local Abbreviation loop' fuel :=
  (loop isNetworkError host fuel input mergedOptions startTime PosInf).

(** A pass goes on to the next one, except the pass of attempt [N + 1],
    which throws the error of its failure. *)
Lemma attempt_fails k w :
  sat (attempt' k) w (fun r _ t =>
    exists e err rest,
      t = EvInput k (Some e) :: rest /\ invocations rest = 0%nat
      /\ toError e = Fulfilled err
      /\ r = if k >=? N + 1 then Throw err else Normal Next).
Proof.
  unfold_attempt. rewrite Hsignal, Hretries. wp.
  all: match goal with
       | H : input ?k ?w = _ |- _ =>
           destruct (Hfails k w) as (? & ? & ? & Hin & Hte & Hnf);
           rewrite Hin in H; try discriminate H; injection H as ? ?; subst
       end.
  all: match goal with
       | H : toError _ = _ |- _ =>
           rewrite Hte in H; try discriminate H; injection H as ?; subst
       end.
  all: try congruence.
  all: match goal with
       | H : onFailedAttempt _ ?c ?w = _ |- _ =>
           destruct (Hhook c w) as [? Hh]; rewrite Hh in H; try discriminate H
       end.
  all: try match goal with
       | H : (_ >=? PosInf)%js = true |- _ =>
           rewrite ge_PosInf_finite in H; discriminate H
       end.
  all: try match goal with
       | H : (_ <=? of_Z 0)%js = true |- _ =>
           rewrite budget_never_spent in H; discriminate H
       end.
  all: try match goal with
       | H : shouldRetry _ ?c ?w = _ |- _ =>
           destruct (HshouldRetry c w) as [? Hs]; rewrite Hs in H; try discriminate H;
           injection H as ? ?; subst
       end.
  all: try discriminate.
  all: match goal with
       | H : (of_Z _ >=? of_Z _ + of_Z 1)%js = _ |- _ => rewrite ge_succ_of_Z in H
       end.
  all: cbn [app thrown_of]; eexists _, _, _;
    (split; [reflexivity|]); (split; [reflexivity|]); (split; [eassumption|]).
  all: match goal with H : (_ >=? _) = _ |- _ => now rewrite H end.
Qed.

(** With [n] retries left the loop invokes the operation [n + 1] times
    more, and throws the error of the last failure. *)
Lemma loop_always_failing (n : nat) :
  forall fuel a w,
    N = a + Z.of_nat n -> (n < fuel)%nat ->
    sat (loop' fuel a) w (fun out _ t =>
      exists e err pre post,
        t = pre ++ EvInput (N + 1) (Some e) :: post /\ invocations post = 0%nat
        /\ toError e = Fulfilled err /\ out = Throw err
        /\ invocations t = S n).
Proof.
  induction n as [|n IH]; intros fuel a w HN Hfuel;
    (destruct fuel as [|fuel]; [lia|]); cbn [loop];
    rewrite Hretries, lt_succ_of_Z;
    (replace (a <? N + 1) with true by (symmetry; apply Z.ltb_lt; lia));
    apply sat_bind; (eapply sat_weaken; [apply attempt_fails|]); cbv beta;
    intros r w1 t1 (e & err & rest & -> & Hrest & Hte & ->).
  - replace (a + 1 >=? N + 1) with true by (symmetry; apply Z.geb_le; lia).
    exists e, err, [], rest. replace (N + 1) with (a + 1) by lia.
    cbn [app invocations]. rewrite Hrest. now repeat split.
  - replace (a + 1 >=? N + 1) with false
      by (symmetry; rewrite Z.geb_leb; apply Z.leb_gt; lia).
    eapply sat_weaken; [apply (IH fuel (a + 1) w1); lia|]. cbv beta.
    intros out w2 t2 (e' & err' & pre & post & -> & Hpost & Hte' & -> & Hcount).
    exists e', err', (EvInput (a + 1) (Some e) :: rest ++ pre), post.
    repeat split; try assumption.
    + cbn [app]. now rewrite <- app_assoc.
    + cbn [app invocations]. rewrite invocations_app, Hrest. cbn [Nat.add].
      now rewrite Hcount.
Qed.
End AlwaysFailing.

Section AlwaysFailingRun.
Context {W T : Type}.
Variable isNetworkError : value -> bool.
Variable host : Runtime W.
Variable input : InputFunction W T.

(** C1. With [retries = N], no signal, no limit on the time, a hook that
    returns and a predicate that says [true], an operation that fails on
    every attempt with something the [catch] block does not rethrow is
    invoked exactly [N + 1] times: the run (any fuel above [N] is enough
    for it) ends by a throw of the error of the last invocation, the one
    numbered [N + 1]. *)
Theorem always_failing_operation (N : nat) (fuel : nat) (options : Options.t W) (w : W) :
  Options.retries options = Some (of_Z (Z.of_nat N)) ->
  Options.signal options = None ->
  maxRetryTime (merge options) = PosInf ->
  (forall c w0, exists w1, onFailedAttempt (merge options) c w0 = (Fulfilled tt, w1)) ->
  (forall c w0, exists w1, shouldRetry (merge options) c w0 = (Fulfilled true, w1)) ->
  (forall k w0, exists e w1 err,
      input k w0 = (Rejected e, w1)
      /\ toError e = Fulfilled err /\ isFatal isNetworkError e err = false) ->
  (N < fuel)%nat ->
  exists e err pre post w',
    pRetry isNetworkError host fuel input options w
    = (Throw err, w', pre ++ EvInput (Z.of_nat N + 1) (Some e) :: post)
    /\ invocations post = 0%nat
    /\ toError e = Fulfilled err
    /\ invocations (pre ++ EvInput (Z.of_nat N + 1) (Some e) :: post) = S N.
Proof.
  intros Hretries Hsignal Htime Hhook Hshould Hfails Hfuel.
  assert (Hsat : sat (pRetry isNetworkError host fuel input options) w (fun out _ t =>
            exists e err pre post,
              t = pre ++ EvInput (Z.of_nat N + 1) (Some e) :: post
              /\ invocations post = 0%nat
              /\ toError e = Fulfilled err /\ out = Throw err
              /\ invocations t = S N)).
  { unfold pRetry. rewrite Hretries, Htime.
    cbn [retries merge default andb]. rewrite Hretries. cbn [default].
    rewrite lt_of_Z.
    replace (Z.of_nat N <? 0) with false by (symmetry; apply Z.ltb_ge; lia).
    unfold signal_throwIfAborted, now_call. cbn [signal merge]. rewrite Hsignal.
    wp. cbn [app].
    apply (loop_always_failing isNetworkError host input _ (Date_now host w) (Z.of_nat N));
      try assumption; try lia.
    cbn [retries merge]. now rewrite Hretries. }
  destruct (pRetry isNetworkError host fuel input options w) as [[out w'] t] eqn:Hrun.
  destruct (sat_run _ _ _ _ _ _ Hsat Hrun) as (e & err & pre & post & -> & Hp & Hte & -> & Hc).
  now exists e, err, pre, post, w'.
Qed.
End AlwaysFailingRun.

(** ** The delay calculator *)

Lemma Qfloor_half (z : Z) : Qfloor (inject_Z z + (1 # 2))%Q = z.
Proof.
  unfold Qfloor, Qplus, inject_Z. cbn.
  replace (z * 2 + 1) with (1 + z * 2) by lia.
  now rewrite Z.div_add.
Qed.

(** Rounding a number that is integral already changes nothing. *)
Lemma Math_round_integral (q : Q) (z : Z) :
  (q == inject_Z z)%Q -> Math_round (Fin q) = of_Z z.
Proof.
  intros H. unfold Math_round, of_Z. f_equal. f_equal.
  rewrite H. apply Qfloor_half.
Qed.

(** *** Binary64 *)

Lemma Qred_inject_Z (z : Z) : Qred (inject_Z z) = inject_Z z.
Proof.
  unfold Qred, inject_Z.
  pose proof (Z.ggcd_gcd z 1) as Hg.
  pose proof (Z.ggcd_correct_divisors z 1) as Hd.
  destruct (Z.ggcd z 1) as [g [aa bb]]. cbn [fst] in Hg.
  rewrite Z.gcd_1_r in Hg. subst g. destruct Hd as [Ha Hb].
  rewrite Z.mul_1_l in Ha, Hb. now subst.
Qed.

(** The rounding looks at the value of a rational, not at the fraction
    that stands for it. *)
Lemma binary64_comp (q q' : Q) : (q == q')%Q -> binary64 (Fin q) = binary64 (Fin q').
Proof. intros H. unfold binary64. now rewrite (Qred_complete _ _ H). Qed.

Lemma binary64_zero (q : Q) : (q == 0)%Q -> binary64 (Fin q) = Fin 0.
Proof. intros H. rewrite (binary64_comp _ _ H). reflexivity. Qed.

Lemma round_half_even_1 (n : Z) : round_half_even n 1 = n.
Proof.
  unfold round_half_even. rewrite Z.mod_1_r, Z.div_1_r. reflexivity.
Qed.

Lemma nearest_double_integer (z : Z) :
  0 < z <= 2 ^ 53 -> nearest_double (inject_Z z) = of_Z z.
Proof.
  intros [Hpos Hle].
  destruct (Z.eq_dec z (2 ^ 53)) as [->|Hne]; [vm_compute; reflexivity|].
  assert (Hlog : 0 <= Z.log2 z <= 52).
  { split; [apply Z.log2_nonneg|].
    assert (Z.log2 z < 53); [|lia].
    apply Z.log2_lt_pow2; lia. }
  pose proof (Z.log2_spec z Hpos) as [Hlo Hhi].
  unfold nearest_double. cbn [Qnum Qden inject_Z].
  assert (Hb : binade z 1 = Z.log2 z).
  { unfold binade. change (Z.log2 1) with 0. rewrite Z.sub_0_r.
    replace (0 <=? Z.log2 z) with true by (symmetry; apply Z.leb_le; lia).
    replace (1 * 2 ^ Z.log2 z <=? z) with true by (symmetry; apply Z.leb_le; lia).
    reflexivity. }
  rewrite Hb.
  rewrite Z.max_l by lia. unfold significand.
  destruct (Z.eq_dec (Z.log2 z) 52) as [E|E].
  - rewrite E. change (52 - 52) with 0. cbn [Z.leb Z.compare andb].
    change (1 * 2 ^ 0) with 1. rewrite round_half_even_1.
    change (2 ^ 0) with 1. rewrite Z.mul_1_r.
    replace (2 ^ 1024 <=? z) with false
      by (symmetry; apply Z.leb_gt; apply Z.le_lt_trans with (2 ^ 53); [lia|reflexivity]).
    unfold scaled. cbn [Z.leb Z.compare]. change (2 ^ 0) with 1. rewrite Z.mul_1_r.
    now rewrite Qred_inject_Z.
  - replace (0 <=? Z.log2 z - 52) with false by (symmetry; apply Z.leb_gt; lia).
    cbn [andb]. rewrite round_half_even_1.
    unfold scaled.
    replace (0 <=? Z.log2 z - 52) with false by (symmetry; apply Z.leb_gt; lia).
    unfold of_Z. f_equal. rewrite <- Qred_inject_Z. apply Qred_complete.
    unfold Qeq. cbn [Qnum Qden inject_Z].
    rewrite Z2Pos.id by (apply Z.pow_pos_nonneg; lia). ring.
Qed.

(** An integer of at most 53 bits is a double. *)
Lemma binary64_integer (q : Q) (z : Z) :
  (q == inject_Z z)%Q -> - 2 ^ 53 <= z <= 2 ^ 53 -> binary64 (Fin q) = of_Z z.
Proof.
  intros Hq Hz. rewrite (binary64_comp _ _ Hq). unfold binary64.
  rewrite Qred_inject_Z. cbn [Qnum inject_Z].
  destruct (Z.compare_spec z 0) as [->|Hneg|Hpos].
  - reflexivity.
  - change (- inject_Z z)%Q with (inject_Z (- z)).
    rewrite nearest_double_integer by lia.
    unfold of_Z, opp. change (- inject_Z (- z))%Q with (inject_Z (- - z)).
    now rewrite Z.opp_involutive.
  - apply nearest_double_integer. lia.
Qed.

Lemma mul_1_l (x : number) : (of_Z 1 * x)%js = x.
Proof. now destruct x. Qed.

(** The factor [1] that stands for the jitter when [randomize] is off does
    not change the rounded product. *)
Lemma Math_round_mul_1 (x y : number) :
  Math_round (of_Z 1 * x * y)%js = Math_round (x * y)%js.
Proof. now rewrite mul_1_l. Qed.

(** A product that is an integer of at most 53 bits is exact. *)
Lemma mul_integral (x y : Q) (z : Z) :
  (x * y == inject_Z z)%Q -> - 2 ^ 53 <= z <= 2 ^ 53 ->
  Math_round (Fin x * Fin y)%js = of_Z z.
Proof.
  intros H Hz. unfold JS.mul.
  destruct (Qeq_bool x 1) eqn:Ex.
  - apply Qeq_bool_eq in Ex. apply Math_round_integral.
    rewrite <- H, Ex. ring.
  - destruct (Qeq_bool y 1) eqn:Ey.
    + apply Qeq_bool_eq in Ey. apply Math_round_integral.
      rewrite <- H, Ey. ring.
    + rewrite (binary64_integer _ z H Hz). now apply Math_round_integral.
Qed.

(** A product by zero is zero. *)
Lemma mul_0_r (x y : Q) : (y == 0)%Q -> Math_round (Fin x * Fin y)%js = of_Z 0.
Proof.
  intros Hy. apply mul_integral; [|split; [vm_compute; discriminate|vm_compute; discriminate]].
  rewrite Hy. ring.
Qed.

Lemma Math_max_floor (m : Q) : (1 <= m)%Q -> Math_max (Fin m) (of_Z 1) = Fin m.
Proof.
  intros H. unfold Math_max, JS.lt, JS.compare, of_Z.
  change (inject_Z 1) with 1%Q.
  destruct (Qcompare m 1) eqn:E; try reflexivity.
  exfalso. apply (Qlt_not_le m 1); [apply Qlt_alt; exact E | exact H].
Qed.

(** The power of zero is fixed by ECMAScript. *)
Lemma pow_zero (approx : Q -> Z -> number) (e : Z) :
  0 < e -> pow approx (of_Z 0) e = Fin 0.
Proof.
  intros He. unfold pow.
  replace (e =? 0) with false by (symmetry; apply Z.eqb_neq; lia).
  cbn. now replace (e <? 0) with false by (symmetry; apply Z.ltb_ge; lia).
Qed.

Lemma lt_Fin (a b : Q) : (a < b)%Q -> (Fin a <? Fin b)%js = true.
Proof.
  intros H. assert (E : Qcompare a b = Lt) by (apply Qlt_alt; exact H).
  unfold JS.lt, JS.compare. now rewrite E.
Qed.

Lemma lt_Fin_inv (a b : Q) : (Fin a <? Fin b)%js = true -> (a < b)%Q.
Proof.
  unfold JS.lt, JS.compare. intros H. apply Qlt_alt.
  destruct (Qcompare a b); congruence || discriminate H.
Qed.

Section Delay.
Context {W T : Type}.
Variable isNetworkError : value -> bool.
Variable host : Runtime W.
Variable options : MergedOptions W.

Local Abbreviation plain_delay := (plainDelay host options).

Lemma calculateDelay_plain i w :
  randomize options = false ->
  calculateDelay host i options w = (Normal (plain_delay i), w, []).
Proof.
  intros Hr. unfold calculateDelay, plainDelay. rewrite Hr.
  unfold bind, ret. cbn [app]. now rewrite Math_round_mul_1.
Qed.

(** Where the power is computed exactly and the product is an integer of at
    most 53 bits, the delay is the product itself, capped. *)
Lemma plainDelay_exact i (m f p : Q) (z : Z) :
  minTimeout options = Fin m -> factor options = Fin f ->
  (1 <= m)%Q ->
  pow (Number_exponentiate host) (Fin f) (i - 1) = Fin p ->
  (p == f ^ (i - 1))%Q ->
  (m * f ^ (i - 1) == inject_Z z)%Q ->
  - 2 ^ 53 <= z <= 2 ^ 53 ->
  plain_delay i = Math_min (of_Z z) (maxTimeout options).
Proof.
  intros Hm Hf Hge Hp Hpe Hz Hbound. unfold plainDelay.
  rewrite Hm, Hf, (Math_max_floor m Hge), Hp.
  rewrite (mul_integral m p z); [reflexivity| |exact Hbound].
  now rewrite Hpe.
Qed.

(** C4, as the code has it.  With [factor = 0] the power is zero from
    the second attempt on, and so is the product: the delay is [0] (or
    [maxTimeout], if that is negative), which is below every positive
    [minTimeout]. *)
Theorem zero_factor_collapses (k : Z) (m : Q) (w : W) :
  randomize options = false ->
  factor options = of_Z 0 ->
  minTimeout options = Fin m ->
  2 <= k ->
  calculateDelay host k options w = (Normal (Math_min (of_Z 0) (maxTimeout options)), w, [])
  /\ ((0 < m)%Q -> maxTimeout options <> NaN ->
      (Math_min (of_Z 0) (maxTimeout options) <? minTimeout options)%js = true).
Proof.
  intros Hr Hf Hm Hk. split.
  - rewrite calculateDelay_plain by assumption. unfold plainDelay.
    rewrite Hf, Hm, pow_zero by lia.
    assert (Hx : exists x, Math_max (Fin m) (of_Z 1) = Fin x).
    { unfold Math_max. destruct (_ <? _)%js; eexists; reflexivity. }
    destruct Hx as [x ->].
    rewrite (mul_0_r x 0); [reflexivity|]. reflexivity.
  - intros Hpos Hmax. rewrite Hm.
    assert (H0 : (of_Z 0 <? Fin m)%js = true) by now apply lt_Fin.
    destruct (maxTimeout options) as [| |t|]; try congruence; try reflexivity.
    + unfold Math_min. destruct (Fin t <? of_Z 0)%js eqn:E; [|exact H0].
      apply lt_Fin_inv in E. apply lt_Fin.
      eapply Qlt_trans; eassumption.
    + exact H0.
Qed.
End Delay.

(** ** The delays of a run without jitter *)

Lemma timers_app (t1 t2 : list Event) : timers (t1 ++ t2) = timers t1 ++ timers t2.
Proof.
  induction t1 as [|ev t1 IH]; [reflexivity|].
  destruct ev; cbn [app timers]; now rewrite IH.
Qed.

Lemma time_never_out (x y : Z) : (PosInf - (of_Z x - of_Z y))%js = PosInf.
Proof. reflexivity. Qed.

Section Pacing.
Context {W T : Type}.
Variable isNetworkError : value -> bool.
Variable host : Runtime W.
Variable input : InputFunction W T.
Variable mergedOptions : MergedOptions W.
Variable startTime : Z.
Variable N : Z.

Hypothesis Hretries : retries mergedOptions = of_Z N.
Hypothesis Hsignal : signal mergedOptions = None.
Hypothesis Hrandomize : randomize mergedOptions = false.
Hypothesis Hfails :
  forall k w, exists e w1 err,
    input k w = (Rejected e, w1)
    /\ toError e = Fulfilled err /\ isFatal isNetworkError e err = false.
Hypothesis Hhook :
  forall c w, exists w1, onFailedAttempt mergedOptions c w = (Fulfilled tt, w1).
Hypothesis HshouldRetry :
  forall c w, exists w1, shouldRetry mergedOptions c w = (Fulfilled true, w1).

Local Abbreviation attempt' :=
  (attempt (T:=T) isNetworkError host input mergedOptions startTime PosInf).
Local Abbreviation loop' fuel :=
  (loop isNetworkError host fuel input mergedOptions startTime PosInf).
Local Abbreviation D i := (plainDelay host mergedOptions i).
Local Abbreviation positive d := (d >? of_Z 0)%js.

(** A pass that is not the last arms one timer, for the delay of its
    attempt, unless that delay is not positive; the last pass arms none. *)
Lemma attempt_paces k w :
  sat (attempt' k) w (fun r _ t =>
    if k >=? N + 1
    then timers t = [] /\ exists err, r = Throw err
    else timers t = (if positive (D k) then [D k] else []) /\ r = Normal Next).
Proof.
  unfold_attempt. rewrite Hsignal, Hretries, Hrandomize. wp.
  all: match goal with
       | H : input ?k ?w = _ |- _ =>
           destruct (Hfails k w) as (? & ? & ? & Hin & Hte & Hnf);
           rewrite Hin in H; try discriminate H; injection H as ? ?; subst
       end.
  all: match goal with
       | H : toError _ = _ |- _ =>
           rewrite Hte in H; try discriminate H; injection H as ?; subst
       end.
  all: try congruence.
  all: match goal with
       | H : onFailedAttempt _ ?c ?w = _ |- _ =>
           destruct (Hhook c w) as [? Hh]; rewrite Hh in H; try discriminate H
       end.
  all: try match goal with
       | H : (_ >=? PosInf)%js = true |- _ =>
           rewrite ge_PosInf_finite in H; discriminate H
       end.
  all: try match goal with
       | H : (_ <=? of_Z 0)%js = true |- _ =>
           rewrite budget_never_spent in H; discriminate H
       end.
  all: try match goal with
       | H : shouldRetry _ ?c ?w = _ |- _ =>
           destruct (HshouldRetry c w) as [? Hs]; rewrite Hs in H; try discriminate H;
           injection H as ? ?; subst
       end.
  all: try discriminate.
  all: match goal with
       | H : (of_Z _ >=? of_Z _ + of_Z 1)%js = _ |- _ =>
           rewrite ge_succ_of_Z in H; rewrite H
       end.
  all: cbn [app thrown_of timers]; (split; [|eauto]).
  all: try reflexivity.
  all: match goal with
       | H : (_ >? of_Z 0)%js = _ |- _ =>
           rewrite Math_round_mul_1, time_never_out, Math_min_PosInf in H
       end.
  all: unfold plainDelay.
  all: match goal with H : (_ >? of_Z 0)%js = _ |- _ => rewrite H end.
  all: try reflexivity.
  all: now rewrite Math_round_mul_1, time_never_out, Math_min_PosInf.
Qed.

(** Entered after [a] attempts with [n] retries left, the loop arms the
    timers of the attempts [a + 1], ..., [a + n], in that order. *)
Lemma loop_paces (n : nat) :
  forall fuel a w,
    N = Z.of_nat a + Z.of_nat n -> (n < fuel)%nat ->
    sat (loop' fuel (Z.of_nat a)) w (fun _ _ t =>
      timers t
      = filter (fun d => positive d) (map (fun i => D (Z.of_nat i)) (seq (S a) n))).
Proof.
  induction n as [|n IH]; intros fuel a w HN Hfuel;
    (destruct fuel as [|fuel]; [lia|]); cbn [loop];
    rewrite Hretries, lt_succ_of_Z;
    (replace (Z.of_nat a <? N + 1) with true by (symmetry; apply Z.ltb_lt; lia));
    apply sat_bind; (eapply sat_weaken; [apply attempt_paces|]); cbv beta;
    intros r w1 t1.
  - replace (Z.of_nat a + 1 >=? N + 1) with true by (symmetry; apply Z.geb_le; lia).
    intros (Ht & err & ->). exact Ht.
  - replace (Z.of_nat a + 1 >=? N + 1) with false
      by (symmetry; rewrite Z.geb_leb; apply Z.leb_gt; lia).
    intros (Ht & ->).
    replace (Z.of_nat a + 1) with (Z.of_nat (S a)) in * by lia.
    eapply sat_weaken; [apply (IH fuel (S a) w1); lia|]. cbv beta.
    intros out w2 t2 Ht2.
    rewrite timers_app, Ht, Ht2. cbn [seq map filter].
    now destruct (positive (D (Z.of_nat (S a)))).
Qed.
End Pacing.

Section PacedRun.
Context {W T : Type}.
Variable isNetworkError : value -> bool.
Variable host : Runtime W.
Variable input : InputFunction W T.

End PacedRun.

(** ** Values that are not errors *)

(** A thrown value that is not an error and has a string conversion is
    wrapped in a [TypeError] that quotes it, and the wrapper is never
    rethrown at once: the test for a [TypeError] looks at the value that was
    thrown. *)
Lemma non_error_is_wrapped (isNetworkError : value -> bool) (e : value) (s : string) :
  instanceof_Error e = false ->
  ToString e = Fulfilled s ->
  let wrapper :=
    new_TypeError ("Non-error was thrown: " ++ double_quote ++ s ++ double_quote
                   ++ ". You should only throw errors.") in
  toError e = Fulfilled wrapper /\ isFatal isNetworkError e wrapper = false.
Proof.
  intros He Hs wrapper. unfold toError, isFatal. rewrite He, Hs.
  split; [reflexivity|]. now destruct e.
Qed.

(** ** The theorems at work on concrete runs *)

Section Concrete.
Local Abbreviation isNet := NetworkError.isNetworkError.

(** Two retries: three invocations. *)
Lemma always_failing_operation_witness :
  exists e err pre post w',
    pRetry isNet Demo.host 5 Demo.alwaysFails
      (Demo.options (Some (of_Z 2)) None None None None false) Demo.start
    = (Throw err, w', pre ++ EvInput (Z.of_nat 2 + 1) (Some e) :: post)
    /\ invocations post = 0%nat
    /\ toError e = Fulfilled err
    /\ invocations (pre ++ EvInput (Z.of_nat 2 + 1) (Some e) :: post) = 3%nat.
Proof.
  apply (always_failing_operation isNet Demo.host Demo.alwaysFails 2 5).
  - reflexivity.
  - reflexivity.
  - reflexivity.
  - intros c w0. eexists. reflexivity.
  - intros c w0. eexists. reflexivity.
  - intros k w0. eexists _, _, _. repeat split; reflexivity.
  - lia.
Defined.

(** An [AbortError] on the third attempt of six. *)
Lemma fatal_error_propagates_witness :
  let options := Demo.options (Some (of_Z 5)) None (Some (of_Z 10)) None None false in
  let run := pRetry isNet Demo.host 10 Demo.abortsOnThird options Demo.start in
  skipn 9 (snd run) = []
  /\ fst (fst run) = Throw (AbortError.new "stop" None false)
  /\ Z.of_nat (invocations (snd run)) = 3.
Proof.
  intros options run.
  apply (fatal_error_propagates isNet Demo.host Demo.abortsOnThird 10 options Demo.start
           (fst (fst run)) (snd (fst run)) (snd run) (firstn 8 (snd run)) 3
           (AbortError.new "stop" None false) (skipn 9 (snd run))).
  - vm_compute. reflexivity.
  - vm_compute. reflexivity.
  - left. reflexivity.
Defined.


(** [factor = 0] and [minTimeout = 100]: no delay after the second
    attempt. *)
Lemma zero_factor_collapses_witness :
  calculateDelay Demo.host 2
    (merge (Demo.options None (Some (of_Z 0)) (Some (of_Z 100)) None None false))
    Demo.start
  = (Normal (of_Z 0), Demo.start, [])
  /\ (of_Z 0 <? of_Z 100)%js = true.
Proof.
  destruct (zero_factor_collapses Demo.host
              (merge (Demo.options None (Some (of_Z 0)) (Some (of_Z 100)) None None false))
              2 (inject_Z 100) Demo.start) as [H1 H2].
  - reflexivity.
  - reflexivity.
  - reflexivity.
  - lia.
  - split; [exact H1|]. apply H2; [reflexivity | discriminate].
Defined.

(** [factor = -2] and [minTimeout = 100]: a negative delay after the
    first attempt, so the second attempt follows at once. *)
Lemma negative_factor_delay :
  calculateDelay Demo.host 1
    (merge (Demo.options None (Some (of_Z (-2))) (Some (of_Z 100)) None None false))
    Demo.start
  = (Normal (of_Z 100), Demo.start, [])
  /\ calculateDelay Demo.host 2
       (merge (Demo.options None (Some (of_Z (-2))) (Some (of_Z 100)) None None false))
       Demo.start
     = (Normal (of_Z (-200)), Demo.start, []).
Proof. split; vm_compute; reflexivity. Qed.

(** A hook that throws on the second failure. *)
Lemma onFailedAttempt_runs_first_witness :
  let options := Demo.options (Some (of_Z 5)) None None (Some Demo.throwingHook) None false in
  let run := pRetry isNet Demo.host 10 Demo.alwaysFails options Demo.start in
  exists h post',
    skipn 5 (snd run)
    = EvOnFailedAttempt (createRetryContext Demo.fixtureError 2 (retries (merge options))) h
        :: post'
    /\ (forall x, h = Some x -> post' = [] /\ fst (fst run) = Throw x).
Proof.
  intros options run.
  apply (onFailedAttempt_runs_first isNet Demo.host Demo.alwaysFails 10 options Demo.start
           (fst (fst run)) (snd (fst run)) (snd run) (firstn 4 (snd run)) 2
           Demo.fixtureError (skipn 5 (snd run)) Demo.fixtureError).
  - vm_compute. reflexivity.
  - vm_compute. reflexivity.
  - reflexivity.
  - reflexivity.
Defined.

(** The user cancels during the first delay: the run rejects with the
    reason given to [abort], which is no [AbortError] and has no cause. *)
Lemma abort_during_delay_witness :
  let run := pRetry isNet Demo.cancellingHost 10 Demo.alwaysFails
               (Demo.options (Some (of_Z 5)) None None None None true) Demo.start in
  reason (Demo.controller (snd (fst run))) = new_Error "shutdown"
  /\ fst (fst run) = Throw (new_Error "shutdown")
  /\ instanceof_AbortError (new_Error "shutdown") = false
  /\ cause_of (new_Error "shutdown") = None
  /\ fst (fst run)
     <> Throw (AbortError.fromSignal (Demo.controller (snd (fst run)))).
Proof.
  intros run.
  destruct (abort_during_delay isNet Demo.cancellingHost Demo.alwaysFails 10
              (Demo.options (Some (of_Z 5)) None None None None true) Demo.start
              (fst (fst run)) (snd (fst run)) (snd run)
              (firstn 4 (snd run)) (of_Z 1000) (skipn 5 (snd run)))
    as (_ & _ & sg & Hsg & Hout).
  - vm_compute. reflexivity.
  - vm_compute. reflexivity.
  - cbn in Hsg. injection Hsg as <-.
    split; [reflexivity|]. split; [exact Hout|]. split; [reflexivity|].
    split; [reflexivity|].
    rewrite Hout. vm_compute. discriminate.
Defined.

(** The user cancels during the second delay.  Two listeners are with the
    signal and both call [clearTimeout]; the call in the trace is the one of
    the delay that is pending. *)
Lemma abort_in_second_delay :
  let options := Demo.options (Some (of_Z 5)) None None None None true in
  let run := pRetry isNet Fixtures.patientHost 10 Demo.alwaysFails options Demo.start in
  timers (snd run) = [of_Z 1000; of_Z 2000]
  /\ skipn 8 (snd run) = [EvClearTimeout (of_Z 2000)]
  /\ Fixtures.clears (snd run) = 1%nat
  /\ Demo.cleared (snd (fst run)) = 2%nat
  /\ fst (fst run) = Throw (new_Error "shutdown").
Proof. repeat split; vm_compute; reflexivity. Qed.

(** The user cancels while the second attempt runs.  The listener of the
    first delay calls [clearTimeout] on a timer that has fired, and the run
    goes on: the failure is reported, the predicate is asked, the second
    delay runs to its end, and the run rejects with the reason at the check
    that follows it. *)
Lemma abort_inside_attempt :
  let options := Demo.options (Some (of_Z 5)) None None None None true in
  let run := pRetry isNet Demo.host 10 Fixtures.cancelledInSecond options Demo.start in
  timers (snd run) = [of_Z 1000; of_Z 2000]
  /\ Fixtures.clears (snd run) = 0%nat
  /\ Demo.cleared (snd (fst run)) = 1%nat
  /\ skipn 7 (snd run) = [EvSetTimeout (of_Z 2000)]
  /\ fst (fst run) = Throw (new_Error "shutdown").
Proof. repeat split; vm_compute; reflexivity. Qed.

(** A predicate that allows one retry out of five. *)
Lemma shouldRetry_false_stops_witness :
  let options := Demo.options (Some (of_Z 5)) None None None (Some Demo.retryOnce) false in
  let run := pRetry isNet Demo.host 10 Demo.alwaysFails options Demo.start in
  let context := createRetryContext Demo.fixtureError 2 (of_Z 5) in
  skipn 7 (snd run) = []
  /\ fst (fst run) = Throw (error context)
  /\ exists pre', firstn 6 (snd run) = pre' ++ [EvOnFailedAttempt context None].
Proof.
  intros options run context.
  apply (shouldRetry_false_stops isNet Demo.host Demo.alwaysFails 10 options Demo.start
           (fst (fst run)) (snd (fst run)) (snd run)).
  - vm_compute. reflexivity.
  - vm_compute. reflexivity.
Defined.

(** [retries: -1] *)
Lemma negative_retries_rejected_witness :
  pRetry isNet Demo.host 10 Demo.alwaysFails
    (Demo.options (Some (of_Z (-1))) None None None None true) Demo.start
  = (Throw (new_TypeError "Expected `retries` to be a non-negative number."),
     Demo.start, []).
Proof.
  apply (negative_retries_rejected isNet Demo.host Demo.alwaysFails 10
           (Demo.options (Some (of_Z (-1))) None None None None true) (of_Z (-1))).
  - reflexivity.
  - reflexivity.
Defined.

(** A symbol thrown on the first attempt of six. *)
Lemma symbol_is_not_wrapped_witness :
  let options := Demo.options (Some (of_Z 5)) None None None None false in
  let run := pRetry isNet Demo.host 10 Demo.throwsSymbol options Demo.start in
  skipn 1 (snd run) = []
  /\ fst (fst run) = Throw (new_TypeError "Cannot convert a Symbol value to a string").
Proof.
  intros options run.
  apply (symbol_is_not_wrapped isNet Demo.host Demo.throwsSymbol 10 options Demo.start
           (fst (fst run)) (snd (fst run)) (snd run) [] 1 "fixture").
  - vm_compute. reflexivity.
  - vm_compute. reflexivity.
Defined.

(** A string thrown on both attempts of two: each failure is wrapped,
    reported to the hook and counted against the retries. *)
Lemma string_is_wrapped :
  let options := Demo.options (Some (of_Z 1)) None None None None false in
  let run := pRetry isNet Demo.host 10 Demo.throwsString options Demo.start in
  let wrapper :=
    new_TypeError ("Non-error was thrown: " ++ double_quote ++ "foo" ++ double_quote
                   ++ ". You should only throw errors.")%string in
  fst (fst run) = Throw wrapper
  /\ snd run
     = [ EvInput 1 (Some (VString "foo"));
         EvOnFailedAttempt (createRetryContext wrapper 1 (of_Z 1)) None;
         EvShouldRetry (createRetryContext wrapper 1 (of_Z 1)) (Fulfilled true);
         EvSetTimeout (of_Z 1000);
         EvInput 2 (Some (VString "foo"));
         EvOnFailedAttempt (createRetryContext wrapper 2 (of_Z 1)) None ].
Proof. split; vm_compute; reflexivity. Qed.

(** [retries: NaN], with a signal that is not aborted. *)
Lemma nan_retries_exhausted_witness :
  pRetry isNet Demo.host 3 Demo.alwaysFails
    (Demo.options (Some NaN) None None None None true) Demo.start
  = (Throw (new_Error "Retry attempts exhausted without throwing an error."),
     Demo.start, []).
Proof.
  destruct (nan_retries_exhausted isNet Demo.host Demo.alwaysFails 2
              (Demo.options (Some NaN) None None None None true) Demo.start)
    as [_ H].
  - reflexivity.
  - apply H. intros sg Hsg. cbn in Hsg. injection Hsg as <-. reflexivity.
Defined.
End Concrete.

(** * Further properties of the engine *)

(** ** More facts about numbers *)

Lemma le_Fin (a b : Q) : (Fin a <=? Fin b)%js = true <-> (a <= b)%Q.
Proof.
  unfold JS.le, JS.compare. rewrite Qle_alt.
  destruct (Qcompare a b); split; congruence.
Qed.

Lemma gt_Fin (a b : Q) : (Fin a >? Fin b)%js = true <-> (b < a)%Q.
Proof.
  unfold JS.gt, JS.compare. rewrite Qlt_alt, <- (Qcompare_antisym a b).
  destruct (Qcompare a b); cbn; split; congruence.
Qed.

Lemma ge_Fin (a b : Q) : (Fin a >=? Fin b)%js = true <-> (b <= a)%Q.
Proof.
  unfold JS.ge, JS.compare. rewrite Qle_alt, <- (Qcompare_antisym a b).
  destruct (Qcompare a b); cbn; split; congruence.
Qed.

Lemma gt_not_NaN (a b : number) : (a >? b)%js = true -> a <> NaN.
Proof. now destruct a. Qed.

Lemma le_trans (a b c : number) :
  (a <=? b)%js = true -> (b <=? c)%js = true -> (a <=? c)%js = true.
Proof.
  destruct a as [| |x|], b as [| |y|], c as [| |z|]; try reflexivity; try discriminate.
  rewrite !le_Fin. apply Qle_trans.
Qed.

Lemma le_refl_Fin (x : Q) : (Fin x <=? Fin x)%js = true.
Proof. apply le_Fin, Qle_refl. Qed.

(** A minimum that is a number is below both arguments. *)
Lemma Math_min_le (a b : number) :
  Math_min a b <> NaN ->
  (Math_min a b <=? a)%js = true /\ (Math_min a b <=? b)%js = true.
Proof.
  destruct a as [| |x|], b as [| |y|]; try (cbn; congruence); try (now split).
  - intros _. unfold Math_min, JS.lt. cbn [JS.compare].
    destruct (Qcompare y x) eqn:E; rewrite ?le_refl_Fin; (split; [|reflexivity || idtac]);
      try reflexivity; apply le_Fin.
    + apply Qle_lteq. right. symmetry. now apply Qeq_alt.
    + apply Qlt_le_weak. now apply Qlt_alt.
    + apply Qlt_le_weak. apply Qlt_alt. now rewrite <- (Qcompare_antisym y x), E.
  - intros _. split; [apply le_refl_Fin | reflexivity].
  - intros _. split; [reflexivity | apply le_refl_Fin].
Qed.

(** The delay that is armed is capped by [maxTimeout], jitter or not. *)
Lemma armed_delay_capped (d cap timeLeft : number) :
  (Math_min (Math_min d cap) timeLeft >? of_Z 0)%js = true ->
  (Math_min (Math_min d cap) timeLeft <=? cap)%js = true.
Proof.
  intros H. apply gt_not_NaN in H.
  destruct (Math_min_le _ _ H) as [H1 _].
  apply (le_trans _ _ _ H1).
  apply Math_min_le. intros E. rewrite E in H. now apply H.
Qed.

Lemma toError_is_Error (e a : value) : toError e = Fulfilled a -> instanceof_Error a = true.
Proof.
  unfold toError. destruct (instanceof_Error e) eqn:E.
  - now intros [= <-].
  - destruct (ToString e); [now intros [= <-] | discriminate].
Qed.

(** ** More about one pass through the body of the loop *)

Section Pass.
Context {W T : Type}.
Variable isNetworkError : value -> bool.
Variable host : Runtime W.
Variable input : InputFunction W T.
Variable mergedOptions : MergedOptions W.
Variable startTime : Z.
Variable maxRetryTime : number.

Local Abbreviation attempt' :=
  (attempt (T:=T) isNetworkError host input mergedOptions startTime maxRetryTime).

(** A pass returns only the value the operation has just resolved to,
    right after the invocation, and only with a signal that is clear. *)
Lemma attempt_returns k w :
  sat (attempt' k) w (fun r w' t =>
    forall v, r = Normal (Return v) ->
      t = [EvInput k None] /\ input k w = (Fulfilled v, w')
      /\ signal_clear (signal mergedOptions) w').
Proof.
  unfold_attempt. wp.
  all: cbn [app thrown_of]; intros v Hv; try discriminate Hv.
  all: injection Hv as <-; (split; [reflexivity|]); (split; [assumption|]).
  all: intros sg Hsg; congruence.
Qed.

(** A pass always ends, and it goes on to the next one only if the
    attempt was not the last. *)
Lemma attempt_goes_on k w :
  sat (attempt' k) w (fun r _ _ =>
    r <> OutOfFuel
    /\ (r = Normal Next ->
        (of_Z k >=? retries mergedOptions + of_Z 1)%js = false)).
Proof.
  unfold_attempt. wp.
  all: split; [discriminate|]; intros Hnext; try discriminate Hnext;
    first [assumption | reflexivity].
Qed.

Lemma attempt_invokes_at_most_once k w :
  sat (attempt' k) w (fun _ _ t => (invocations t <= 1)%nat).
Proof. unfold_attempt. wp. all: cbn; lia. Qed.

(** The context the hook receives: the number of the attempt, the retries
    that are left after it, and an [Error]. *)
Lemma attempt_context k w :
  sat (attempt' k) w (fun _ _ t =>
    forall pre c h post,
      t = pre ++ EvOnFailedAttempt c h :: post ->
      attemptNumber c = k
      /\ retriesLeft c = (retries mergedOptions - (of_Z k - of_Z 1))%js
      /\ instanceof_Error (error c) = true).
Proof.
  unfold_attempt. wp.
  all: cbn [app thrown_of]; intros pre c h post Hs; split_trace Hs; try discriminate.
  all: subst; cbn [attemptNumber retriesLeft error createRetryContext].
  all: repeat split; eapply toError_is_Error; eassumption.
Qed.

(** [shouldRetry] is asked right after [onFailedAttempt] has returned,
    about the same context, and never after the last attempt. *)
Lemma attempt_asks k w :
  sat (attempt' k) w (fun _ _ t =>
    forall pre c answer post,
      t = pre ++ EvShouldRetry c answer :: post ->
      (exists pre', pre = pre' ++ [EvOnFailedAttempt c None])
      /\ (of_Z (attemptNumber c) >=? retries mergedOptions + of_Z 1)%js = false).
Proof.
  unfold_attempt. wp.
  all: cbn [app thrown_of]; intros pre c answer post Hs; split_trace Hs; try discriminate.
  all: subst; cbn [attemptNumber createRetryContext];
    (split; [|first [assumption | reflexivity]]).
  all: first [ now exists [] | now eexists [_] ].
Qed.

(** A throw of [shouldRetry] ends the pass. *)
Lemma attempt_predicate_throws k w :
  sat (attempt' k) w (fun r _ t =>
    forall pre c x post,
      t = pre ++ EvShouldRetry c (Rejected x) :: post ->
      post = [] /\ r = Throw x).
Proof.
  unfold_attempt. wp.
  all: cbn [app thrown_of]; intros pre c x post Hs; split_trace Hs; try discriminate.
  all: subst; now split.
Qed.

(** A timer is armed right after [shouldRetry] has said [true], for a
    positive time that [maxTimeout] caps, and it is unref'd at once if
    [unref] is set. *)
Lemma attempt_arms k w :
  sat (attempt' k) w (fun _ _ t =>
    forall pre ms post,
      t = pre ++ EvSetTimeout ms :: post ->
      (exists pre' c, pre = pre' ++ [EvShouldRetry c (Fulfilled true)])
      /\ (ms >? of_Z 0)%js = true
      /\ (ms <=? maxTimeout mergedOptions)%js = true
      /\ (unref mergedOptions = true -> exists post', post = EvUnref :: post')).
Proof.
  unfold_attempt. wp.
  all: cbn [app thrown_of]; intros pre ms post Hs; split_trace Hs; try discriminate.
  all: subst.
  all: match goal with
       | H : negb ?b = false |- _ => destruct b; [|discriminate H]
       end.
  all: split; [first [ now eexists [_], _ | now eexists [_; _], _ ]|].
  all: split; [assumption|].
  all: split; [now apply armed_delay_capped|].
  all: intros Hu; first [ discriminate Hu | congruence | now eexists ].
Qed.

(** A timer is unref'd only if [unref] is set, and right after it is
    armed. *)
Lemma attempt_unrefs k w :
  sat (attempt' k) w (fun _ _ t =>
    forall pre post,
      t = pre ++ EvUnref :: post ->
      unref mergedOptions = true
      /\ exists pre' ms, pre = pre' ++ [EvSetTimeout ms]).
Proof.
  unfold_attempt. wp.
  all: cbn [app thrown_of]; intros pre post Hs; split_trace Hs; try discriminate.
  all: subst; (split; [first [assumption | reflexivity]|]).
  all: first [ now eexists [_; _], _ | now eexists [_; _; _], _ ].
Qed.
End Pass.

(** ** Every call of a run belongs to one pass *)

Lemma sat_both {W A} (m : M A) (w : W) (Q Q' : Completion A -> W -> list Event -> Prop) :
  sat m w Q -> sat m w Q' -> sat m w (fun r w' t => Q r w' t /\ Q' r w' t).
Proof. unfold sat. destruct (m w) as [[r w'] t]. auto. Qed.

Lemma sat_self {W A} (m : M A) (w : W) : sat m w (fun r w' t => m w = (r, w', t)).
Proof. unfold sat. now destruct (m w) as [[r w'] t]. Qed.

Section Passes.
Context {W T : Type}.
Variable isNetworkError : value -> bool.
Variable host : Runtime W.
Variable input : InputFunction W T.

Local Abbreviation pRetry' := (pRetry (T:=T) isNetworkError host).

(** The passes of the loop, seen from one event [ev] of its trace: the pass
    the event belongs to is pass [k], entered in a world [w0] with a clear
    signal after the condition of the loop has let it in; it makes the calls
    [p1 ++ ev :: p2]; the [k - 1] invocations of the passes before it are in
    [before]; and unless the pass goes on to the next one, it is the last and
    the loop ends as it does. *)
Lemma loop_pass (mergedOptions : MergedOptions W) (startTime : Z) (maxRetryTime : number)
    (fuel : nat) :
  forall a w,
    signal_clear (signal mergedOptions) w ->
    sat (loop isNetworkError host fuel input mergedOptions startTime maxRetryTime a) w
      (fun out w' tr =>
         forall pre ev post,
           tr = pre ++ ev :: post ->
           exists k w0 r w1 p1 p2 before after,
             attempt isNetworkError host input mergedOptions startTime maxRetryTime k w0
             = (r, w1, p1 ++ ev :: p2)
             /\ signal_clear (signal mergedOptions) w0
             /\ (of_Z (k - 1) <? retries mergedOptions + of_Z 1)%js = true
             /\ pre = before ++ p1 /\ post = p2 ++ after
             /\ Z.of_nat (invocations before) = k - 1 - a
             /\ (r = Normal Next
                 \/ (after = [] /\ w1 = w' /\ thrown_by out = thrown_by r
                     /\ forall v, r = Normal (Return v) -> out = Normal v))).
Proof.
  induction fuel as [|fuel' IH]; intros a w Hclear; cbn [loop].
  - apply sat_diverge. intros pre ev post H. destruct pre; discriminate H.
  - destruct (of_Z a <? retries mergedOptions + of_Z 1)%js eqn:Hguard.
    2: { apply sat_throw. intros pre ev post H. destruct pre; discriminate H. }
    apply sat_bind.
    eapply sat_weaken;
      [apply (sat_both _ _ _ _
                (sat_self (attempt isNetworkError host input mergedOptions startTime
                             maxRetryTime (a + 1)) w)
                (attempt_invokes_once isNetworkError host input mergedOptions startTime
                   maxRetryTime (a + 1) w Hclear))|].
    cbv beta. intros r w1 t1 (Hrun & (x & rest & Ht1 & Hrest) & Hnext).
    destruct r as [[v|]|e|].
    + apply sat_ret. rewrite app_nil_r. intros pre ev post Hs.
      exists (a + 1), w, (Normal (Return v)), w1, pre, post, [], [].
      rewrite <- Hs, app_nil_r. replace (a + 1 - 1) with a by lia.
      repeat split; try assumption; try (cbn; lia).
      right. repeat split. now intros v' [= <-].
    + eapply sat_weaken; [apply (IH (a + 1) w1); now apply Hnext|]. cbv beta.
      intros out w2 t2 Hl pre ev post Hs.
      destruct (app_split _ _ _ _ _ Hs) as [(mid & Hm & ->)|(pre' & -> & Hm)].
      * exists (a + 1), w, (Normal Next), w1, pre, mid, [], t2.
        rewrite <- Hm. replace (a + 1 - 1) with a by lia.
        repeat split; try assumption; try (cbn; lia). now left.
      * destruct (Hl _ _ _ Hm)
          as (k & w0 & r0 & w3 & p1 & p2 & before & after & H1 & H2 & H3 & -> & -> & H6 & H7).
        exists k, w0, r0, w3, p1, p2, (t1 ++ before), after.
        repeat split; try assumption.
        -- now rewrite app_assoc.
        -- rewrite invocations_app, Ht1. cbn [invocations]. rewrite Hrest. lia.
    + intros pre ev post Hs.
      exists (a + 1), w, (Throw e), w1, pre, post, [], [].
      rewrite <- Hs, app_nil_r. replace (a + 1 - 1) with a by lia.
      repeat split; try assumption; try (cbn; lia).
      right. repeat split. discriminate.
    + intros pre ev post Hs.
      exists (a + 1), w, OutOfFuel, w1, pre, post, [], [].
      rewrite <- Hs, app_nil_r. replace (a + 1 - 1) with a by lia.
      repeat split; try assumption; try (cbn; lia).
      right. repeat split. discriminate.
Qed.

(** The same for a run of [pRetry]: the passes start with attempt one, and
    they measure the time from the reading of the clock at the call. *)
Lemma pRetry_pass fuel (options : Options.t W) w out w' tr pre ev post :
  pRetry' fuel input options w = (out, w', tr) ->
  tr = pre ++ ev :: post ->
  exists k w0 r w1 p1 p2 before after,
    attempt isNetworkError host input (merge options) (Date_now host w)
      (maxRetryTime (merge options)) k w0
    = (r, w1, p1 ++ ev :: p2)
    /\ signal_clear (Options.signal options) w0
    /\ (of_Z (k - 1) <? retries (merge options) + of_Z 1)%js = true
    /\ pre = before ++ p1 /\ post = p2 ++ after
    /\ Z.of_nat (invocations before) = k - 1
    /\ (r = Normal Next
        \/ (after = [] /\ w1 = w' /\ thrown_by out = thrown_by r
            /\ forall v, r = Normal (Return v) -> out = Normal v)).
Proof.
  intros Hrun. revert pre ev post.
  refine (sat_run _ _ (fun out w' tr => forall pre ev post, tr = pre ++ ev :: post -> _)
            _ _ _ _ Hrun).
  unfold pRetry.
  destruct (_ && _).
  { apply sat_throw. intros pre ev post H. destruct pre; discriminate H. }
  assert (Hloop : signal_clear (Options.signal options) w ->
            sat (loop isNetworkError host fuel input (merge options) (Date_now host w)
                   (maxRetryTime (merge options)) 0) w
              (fun out w' tr => forall pre ev post, tr = pre ++ ev :: post ->
                 exists k w0 r w1 p1 p2 before after,
                   attempt isNetworkError host input (merge options) (Date_now host w)
                     (maxRetryTime (merge options)) k w0
                   = (r, w1, p1 ++ ev :: p2)
                   /\ signal_clear (Options.signal options) w0
                   /\ (of_Z (k - 1) <? retries (merge options) + of_Z 1)%js = true
                   /\ pre = before ++ p1 /\ post = p2 ++ after
                   /\ Z.of_nat (invocations before) = k - 1
                   /\ (r = Normal Next
                       \/ (after = [] /\ w1 = w' /\ thrown_by out = thrown_by r
                           /\ forall v, r = Normal (Return v) -> out = Normal v)))).
  { intros Hclear. eapply sat_weaken; [apply loop_pass; exact Hclear|]. cbv beta.
    intros out0 w0' tr0 H pre ev post Hs.
    destruct (H _ _ _ Hs)
      as (k & w0 & r0 & w3 & p1 & p2 & before & after & H1 & H2 & H3 & H4 & H5 & H6 & H7).
    exists k, w0, r0, w3, p1, p2, before, after.
    repeat split; try assumption. lia. }
  unfold signal_throwIfAborted, now_call. cbn [signal merge].
  destruct (Options.signal options) as [sg|] eqn:Hsg; wp.
  - intros pre ev post H. destruct pre; discriminate H.
  - cbn [app]. apply Hloop. intros sg' [= <-]. assumption.
  - cbn [app]. apply Hloop. intros sg' Heq. discriminate Heq.
Qed.
End Passes.

(** ** What holds of every run *)

Lemma invocations_app_0 (t1 t2 : list Event) :
  invocations (t1 ++ t2) = 0%nat -> invocations t1 = 0%nat /\ invocations t2 = 0%nat.
Proof. rewrite invocations_app. lia. Qed.

(** The last invocation of a trace that has one. *)
Lemma last_invocation (t : list Event) :
  (0 < invocations t)%nat ->
  exists pre k x post, t = pre ++ EvInput k x :: post /\ invocations post = 0%nat.
Proof.
  induction t as [|ev t IH]; cbn [invocations]; [lia|]. intros H.
  destruct (Nat.eq_dec (invocations t) 0) as [H0|H0].
  - destruct ev as [k x| | | | |]; try lia. exists [], k, x, t. now split.
  - destruct IH as (pre & k & x & post & -> & Hp); [lia|].
    exists (ev :: pre), k, x, post. now split.
Qed.

Lemma retriesLeft_integral (N k : Z) :
  (of_Z N - (of_Z k - of_Z 1) == of_Z (N + 1 - k))%js.
Proof.
  unfold JS.eqv, JS.sub, JS.add, JS.opp, of_Z, inject_Z, Qeq, Qplus, Qopp. cbn. lia.
Qed.

Lemma nonnegative_retries (r : number) :
  (r >=? of_Z 0)%js = true ->
  (r <? of_Z 0)%js = false /\ (of_Z 0 <? r + of_Z 1)%js = true.
Proof.
  destruct r as [| |q|]; try discriminate; [|now split].
  intros H. apply ge_Fin in H. change (inject_Z 0) with 0%Q in H. split.
  - destruct (Fin q <? of_Z 0)%js eqn:E; [|reflexivity].
    apply lt_Fin_inv in E. exfalso. apply (Qlt_not_le _ _ E H).
  - apply lt_Fin. change (inject_Z 0) with 0%Q. change (inject_Z 1) with 1%Q.
    apply Qle_lt_trans with (y := q); [assumption|].
    rewrite <- (Qplus_0_r q) at 1. apply Qplus_lt_r. reflexivity.
Qed.

Section EveryRun.
Context {W T : Type}.
Variable isNetworkError : value -> bool.
Variable host : Runtime W.
Variable input : InputFunction W T.

Local Abbreviation pRetry' := (pRetry (T:=T) isNetworkError host).
Local Abbreviation attempt' options w :=
  (attempt (T:=T) isNetworkError host input (merge options) (Date_now host w)
     (maxRetryTime (merge options))).


(** [shouldRetry] is consulted only right after [onFailedAttempt] has
    returned, about the same context, and never after the last attempt: with
    an integral [retries = N] it is asked after attempt [N] at the latest,
    so at least one retry is left whenever it is asked. *)
Theorem shouldRetry_asked_after_hook fuel (options : Options.t W) w out w' tr
    pre c answer post :
  pRetry' fuel input options w = (out, w', tr) ->
  tr = pre ++ EvShouldRetry c answer :: post ->
  (exists pre', pre = pre' ++ [EvOnFailedAttempt c None])
  /\ (of_Z (attemptNumber c) >=? retries (merge options) + of_Z 1)%js = false
  /\ forall N, retries (merge options) = of_Z N -> attemptNumber c <= N.
Proof.
  intros Hrun Hs.
  destruct (pRetry_pass _ _ _ _ _ _ _ _ _ _ _ _ Hrun Hs)
    as (k & w0 & r & w1 & p1 & p2 & before & after & Hpass & _ & _ & -> & -> & _ & _).
  destruct (sat_run _ _ _ _ _ _ (attempt_asks _ _ _ _ _ _ k w0) Hpass _ _ _ _ eq_refl)
    as ((pre' & ->) & Hlast).
  repeat split.
  - exists (before ++ pre'). now rewrite app_assoc.
  - exact Hlast.
  - intros N HN. rewrite HN, ge_succ_of_Z in Hlast.
    rewrite Z.geb_leb in Hlast. apply Z.leb_gt in Hlast. lia.
Qed.

(** If [shouldRetry] throws, nothing is called after it and the run rejects
    with what it threw, in place of the error of the operation. *)
Theorem shouldRetry_throw_propagates fuel (options : Options.t W) w out w' tr
    pre c x post :
  pRetry' fuel input options w = (out, w', tr) ->
  tr = pre ++ EvShouldRetry c (Rejected x) :: post ->
  post = [] /\ out = Throw x.
Proof.
  intros Hrun Hs.
  destruct (pRetry_pass _ _ _ _ _ _ _ _ _ _ _ _ Hrun Hs)
    as (k & w0 & r & w1 & p1 & p2 & before & after & Hpass & _ & _ & -> & -> & _ & Hend).
  destruct (sat_run _ _ _ _ _ _ (attempt_predicate_throws _ _ _ _ _ _ k w0) Hpass
              _ _ _ _ eq_refl) as [-> ->].
  destruct Hend as [Hnext|(-> & _ & Hout & _)]; [discriminate Hnext|].
  split; [reflexivity|]. now apply thrown_by_Some.
Qed.

(** A timer is armed only right after [shouldRetry] has said [true], and
    only for a positive time that does not exceed [maxTimeout], with or
    without jitter and whatever the time budget. *)
Theorem timer_armed_after_consent fuel (options : Options.t W) w out w' tr pre ms post :
  pRetry' fuel input options w = (out, w', tr) ->
  tr = pre ++ EvSetTimeout ms :: post ->
  (exists pre' c, pre = pre' ++ [EvShouldRetry c (Fulfilled true)])
  /\ (ms >? of_Z 0)%js = true
  /\ (ms <=? maxTimeout (merge options))%js = true.
Proof.
  intros Hrun Hs.
  destruct (pRetry_pass _ _ _ _ _ _ _ _ _ _ _ _ Hrun Hs)
    as (k & w0 & r & w1 & p1 & p2 & before & after & Hpass & _ & _ & -> & -> & _ & _).
  destruct (sat_run _ _ _ _ _ _ (attempt_arms _ _ _ _ _ _ k w0) Hpass _ _ _ eq_refl)
    as ((pre' & c & ->) & Hpos & Hcap & _).
  repeat split; try assumption.
  exists (before ++ pre'), c. now rewrite app_assoc.
Qed.

(** With [unref] set every timer is unref'd as soon as it is armed;
    without it no timer ever is. *)
Theorem unref_follows_option fuel (options : Options.t W) w out w' tr :
  pRetry' fuel input options w = (out, w', tr) ->
  (forall pre ms post,
      tr = pre ++ EvSetTimeout ms :: post ->
      unref (merge options) = true -> exists post', post = EvUnref :: post')
  /\ (forall pre post,
         tr = pre ++ EvUnref :: post ->
         unref (merge options) = true
         /\ exists pre' ms, pre = pre' ++ [EvSetTimeout ms]).
Proof.
  intros Hrun. split.
  - intros pre ms post Hs Hu.
    destruct (pRetry_pass _ _ _ _ _ _ _ _ _ _ _ _ Hrun Hs)
      as (k & w0 & r & w1 & p1 & p2 & before & after & Hpass & _ & _ & -> & -> & _ & _).
    destruct (sat_run _ _ _ _ _ _ (attempt_arms _ _ _ _ _ _ k w0) Hpass _ _ _ eq_refl)
      as (_ & _ & _ & Hunref).
    destruct (Hunref Hu) as [post' ->]. now exists (post' ++ after).
  - intros pre post Hs.
    destruct (pRetry_pass _ _ _ _ _ _ _ _ _ _ _ _ Hrun Hs)
      as (k & w0 & r & w1 & p1 & p2 & before & after & Hpass & _ & _ & -> & -> & _ & _).
    destruct (sat_run _ _ _ _ _ _ (attempt_unrefs _ _ _ _ _ _ k w0) Hpass _ _ eq_refl)
      as (Hu & pre' & ms & ->).
    split; [exact Hu|]. exists (before ++ pre'), ms. now rewrite app_assoc.
Qed.

(** With an integral [retries = N] the operation is never invoked more
    than [N + 1] times, whatever the operation, the hooks and the signal
    do. *)
Theorem invocations_bounded fuel (options : Options.t W) w out w' tr (N : Z) :
  pRetry' fuel input options w = (out, w', tr) ->
  retries (merge options) = of_Z N ->
  (invocations tr <= Z.to_nat (N + 1))%nat.
Proof.
  intros Hrun HN.
  destruct (Nat.eq_dec (invocations tr) 0) as [H0|H0]; [lia|].
  destruct (last_invocation tr) as (pre & k & x & post & Hs & Hpost); [lia|].
  pose proof (invocations_numbered _ _ _ _ _ _ _ _ _ Hrun _ _ _ _ Hs) as Hk.
  destruct (pRetry_pass _ _ _ _ _ _ _ _ _ _ _ _ Hrun Hs)
    as (k' & w0 & r & w1 & p1 & p2 & before & after & Hpass & Hclear & Hguard
        & Hpre & _ & Hbefore & _).
  destruct (sat_run _ _ _ _ _ _ (attempt_invokes_once isNetworkError host input (merge options)
                               (Date_now host w) (maxRetryTime (merge options)) k' w0 Hclear) Hpass)
    as [(x' & rest & Ht & Hrest) _].
  assert (Hsame : k = k').
  { destruct p1 as [|ev p1]; cbn [app] in Ht.
    - now injection Ht as -> _ _.
    - injection Ht as _ Ht. rewrite <- Ht in Hrest.
      apply invocations_app_0 in Hrest. cbn [invocations] in Hrest. lia. }
  subst k'. rewrite HN, lt_succ_of_Z in Hguard. apply Z.ltb_lt in Hguard.
  subst tr. rewrite invocations_app. cbn [invocations]. rewrite Hpost. lia.
Qed.
End EveryRun.

Section Outcomes.
Context {W T : Type}.
Variable isNetworkError : value -> bool.
Variable host : Runtime W.
Variable input : InputFunction W T.

Local Abbreviation pRetry' := (pRetry (T:=T) isNetworkError host).

(** [pRetry] resolves only with the value the operation has just resolved
    to: the successful invocation is the last call of the run, and the signal
    is not aborted when the run returns.  So a value the operation produces
    while the signal is being aborted is never returned. *)
Theorem resolves_with_last_value fuel (options : Options.t W) w w' tr (v : T) :
  pRetry' fuel input options w = (Normal v, w', tr) ->
  exists pre k w0,
    tr = pre ++ [EvInput k None]
    /\ input k w0 = (Fulfilled v, w')
    /\ signal_clear (Options.signal options) w'.
Proof.
  intros Hrun.
  refine (sat_run _ _ (fun out w' t => forall v, out = Normal v ->
            exists pre k w0, t = pre ++ [EvInput k None]
                             /\ input k w0 = (Fulfilled v, w')
                             /\ signal_clear (Options.signal options) w')
            _ _ _ _ Hrun v eq_refl).
  apply pRetry_sat; [discriminate|].
  intros w1 startTime _.
  apply (loop_sat isNetworkError host input (merge options) startTime
           (maxRetryTime (merge options)) (fun _ => True)
           (fun k r w' t => forall v, r = Normal (Return v) ->
              exists w0, t = [EvInput k None] /\ input k w0 = (Fulfilled v, w')
                         /\ signal_clear (Options.signal options) w')
           (fun _ out w' t => forall v, out = Normal v ->
              exists pre k w0, t = pre ++ [EvInput k None]
                               /\ input k w0 = (Fulfilled v, w')
                               /\ signal_clear (Options.signal options) w'));
    try exact I; try discriminate.
  - intros k w2 _. eapply sat_weaken; [apply attempt_returns|]. cbv beta.
    intros r w3 t H. split; [|trivial]. intros v0 Hv. exists w2. now apply H.
  - intros a w2 t v0 H v1 [= <-].
    destruct (H v0 eq_refl) as (w0 & -> & Hin & Hc). now exists [], (a + 1), w0.
  - intros a w2 t1 out w3 t2 _ _ H v0 Hv.
    destruct (H v0 Hv) as (pre & k & w0 & -> & Hin & Hc).
    exists (t1 ++ pre), k, w0. now rewrite app_assoc.
Qed.

(** With a [retries] that is a number and not negative, and a signal that
    is not aborted at the call, the operation is invoked at least once: the
    first call of the run is attempt one, and the throw that follows the loop
    is not reached before it. *)
Theorem invoked_at_least_once fuel (options : Options.t W) w out w' tr :
  (retries (merge options) >=? of_Z 0)%js = true ->
  signal_clear (Options.signal options) w ->
  pRetry' (S fuel) input options w = (out, w', tr) ->
  exists x rest, tr = EvInput 1 x :: rest.
Proof.
  intros Hr Hclear Hrun.
  destruct (nonnegative_retries _ Hr) as [Hvalid Hguard].
  refine (sat_run _ _ (fun _ _ t => exists x rest, t = EvInput 1 x :: rest) _ _ _ _ Hrun).
  unfold pRetry. rewrite Hvalid, andb_false_r.
  unfold signal_throwIfAborted, now_call. cbn [signal merge].
  assert (Hloop : sat
            (loop isNetworkError host (S fuel) input (merge options) (Date_now host w)
               (maxRetryTime (merge options)) 0) w
            (fun _ _ t => exists x rest, t = EvInput 1 x :: rest)).
  { cbn [loop]. rewrite Hguard. apply sat_bind.
    eapply sat_weaken;
      [apply (attempt_invokes_once isNetworkError host input (merge options)
                (Date_now host w) (maxRetryTime (merge options)) 1 w Hclear)|].
    cbv beta. intros r w1 t1 [(x & rest & -> & _) _].
    destruct r as [[v|]|e|]; try (now exists x, rest).
    - apply sat_ret. now exists x, (rest ++ []).
    - unfold sat. destruct (loop _ _ _ _ _ _ _ _ _) as [[out2 w2] t2].
      now exists x, (rest ++ t2). }
  destruct (Options.signal options) as [sg|] eqn:Hsg; wp.
  - exfalso. specialize (Hclear sg eq_refl). congruence.
  - eapply sat_weaken; [exact Hloop|]. cbn [app]. trivial.
  - eapply sat_weaken; [exact Hloop|]. cbn [app]. trivial.
Qed.

(** A signal that is aborted already when [pRetry] is called with valid
    [retries] makes it reject with the reason of the signal, before the
    operation or a hook is called. *)
Theorem aborted_before_call fuel (options : Options.t W) w sg :
  (forall r, Options.retries options = Some r -> (r <? of_Z 0)%js = false) ->
  Options.signal options = Some sg ->
  aborted (sg w) = true ->
  pRetry' fuel input options w = (Throw (reason (sg w)), w, []).
Proof.
  intros Hvalid Hsg Haborted.
  assert (Hcheck : match Options.retries options with Some _ => true | None => false end
                   && (retries (merge options) <? of_Z 0)%js = false).
  { cbn [merge retries].
    destruct (Options.retries options) as [r|]; [|reflexivity].
    cbn [default andb]. exact (Hvalid r eq_refl). }
  unfold pRetry. rewrite Hcheck.
  unfold signal_throwIfAborted, bind, gets, throw. cbn [signal merge].
  now rewrite Hsg, Haborted.
Qed.

(** A thrown value that is not an error and has a string conversion
    reaches [onFailedAttempt] as a [TypeError] whose message quotes it. *)
Theorem non_error_reported_wrapped fuel (options : Options.t W) w out w' tr
    pre k e s post :
  pRetry' fuel input options w = (out, w', tr) ->
  tr = pre ++ EvInput k (Some e) :: post ->
  instanceof_Error e = false ->
  ToString e = Fulfilled s ->
  exists h post',
    post = EvOnFailedAttempt
             (createRetryContext
                (new_TypeError ("Non-error was thrown: " ++ double_quote ++ s
                                ++ double_quote ++ ". You should only throw errors."))
                k (retries (merge options))) h :: post'.
Proof.
  intros Hrun Hs He Hstr.
  destruct (non_error_is_wrapped isNetworkError e s He Hstr) as [Hw Hnf].
  destruct (pRetry_pass _ _ _ _ _ _ _ _ _ _ _ _ Hrun Hs)
    as (k' & w0 & r & w1 & p1 & p2 & before & after & Hpass & _ & _ & -> & -> & _ & _).
  destruct (sat_run _ _ _ _ _ _ (attempt_notifies _ _ _ _ _ _ k' w0) Hpass
              _ _ _ _ _ eq_refl Hw Hnf) as (h & post' & -> & _).
  exists h, (post' ++ after). reflexivity.
Qed.
End Outcomes.

(** ** Runs that end with a value *)

Section EventualSuccess.
Context {W T : Type}.
Variable isNetworkError : value -> bool.
Variable host : Runtime W.
Variable input : InputFunction W T.
Variable mergedOptions : MergedOptions W.
Variable startTime : Z.
Variables N K : Z.

Hypothesis Hretries : retries mergedOptions = of_Z N.
Hypothesis HK : 1 <= K <= N + 1.
Hypothesis Hsignal : signal mergedOptions = None.
Hypothesis Hfails :
  forall k w, 1 <= k < K ->
    exists e w1 err,
      input k w = (Rejected e, w1)
      /\ toError e = Fulfilled err /\ isFatal isNetworkError e err = false.
Hypothesis Hsucceeds : forall w, exists v w1, input K w = (Fulfilled v, w1).
Hypothesis Hhook :
  forall c w, exists w1, onFailedAttempt mergedOptions c w = (Fulfilled tt, w1).
Hypothesis HshouldRetry :
  forall c w, exists w1, shouldRetry mergedOptions c w = (Fulfilled true, w1).

Local Abbreviation attempt' :=
  (attempt (T:=T) isNetworkError host input mergedOptions startTime PosInf).
Local Abbreviation loop' fuel :=
  (loop isNetworkError host fuel input mergedOptions startTime PosInf).

(** A pass before attempt [K] invokes the operation once and goes on. *)
Lemma attempt_fails_before k w :
  1 <= k < K ->
  sat (attempt' k) w (fun r _ t =>
    r = Normal Next
    /\ exists e rest, t = EvInput k (Some e) :: rest /\ invocations rest = 0%nat).
Proof.
  intros Hk. unfold_attempt. rewrite Hsignal, Hretries. wp.
  all: match goal with
       | H : input ?k ?w = _ |- _ =>
           destruct (Hfails k w Hk) as (? & ? & ? & Hin & Hte & Hnf);
           rewrite Hin in H; try discriminate H; injection H as ? ?; subst
       end.
  all: match goal with
       | H : toError _ = _ |- _ =>
           rewrite Hte in H; try discriminate H; injection H as ?; subst
       end.
  all: try congruence.
  all: match goal with
       | H : onFailedAttempt _ ?c ?w = _ |- _ =>
           destruct (Hhook c w) as [? Hh]; rewrite Hh in H; try discriminate H
       end.
  all: try match goal with
       | H : (_ >=? PosInf)%js = true |- _ =>
           rewrite ge_PosInf_finite in H; discriminate H
       end.
  all: try match goal with
       | H : (_ <=? of_Z 0)%js = true |- _ =>
           rewrite budget_never_spent in H; discriminate H
       end.
  all: try match goal with
       | H : shouldRetry _ ?c ?w = _ |- _ =>
           destruct (HshouldRetry c w) as [? Hs]; rewrite Hs in H; try discriminate H;
           injection H as ? ?; subst
       end.
  all: try discriminate.
  all: match goal with
       | H : (of_Z _ >=? of_Z _ + of_Z 1)%js = _ |- _ => rewrite ge_succ_of_Z in H
       end.
  all: try match goal with
       | H : (_ >=? _) = true |- _ => apply Z.geb_le in H; lia
       end.
  all: cbn [app thrown_of]; (split; [reflexivity|]); eexists _, _;
    (split; [reflexivity|]); reflexivity.
Qed.

(** The pass of attempt [K] returns what the operation resolves to. *)
Lemma attempt_succeeds w :
  sat (attempt' K) w (fun r w' t =>
    exists v, r = Normal (Return v) /\ t = [EvInput K None]
              /\ input K w = (Fulfilled v, w')).
Proof.
  unfold_attempt. rewrite Hsignal. wp.
  all: match goal with
       | H : input K ?w = _ |- _ =>
           destruct (Hsucceeds w) as (? & ? & Hin);
           pose proof H as Hcopy;
           rewrite Hin in H; try discriminate H; injection H as ? ?; subst
       end.
  all: cbn [app thrown_of]; eexists; repeat split; eassumption.
Qed.

(** Entered [n] failures before attempt [K], the loop invokes the operation
    [n + 1] times and returns the value of the last invocation. *)
Lemma loop_eventual_success (n : nat) :
  forall fuel a w,
    K = a + 1 + Z.of_nat n -> 0 <= a -> (n < fuel)%nat ->
    sat (loop' fuel a) w (fun out w' t =>
      exists v pre w0,
        out = Normal v /\ t = pre ++ [EvInput K None]
        /\ input K w0 = (Fulfilled v, w')
        /\ invocations t = S n).
Proof.
  induction n as [|n IH]; intros fuel a w HKa Ha Hfuel;
    (destruct fuel as [|fuel]; [lia|]); cbn [loop];
    rewrite Hretries, lt_succ_of_Z;
    (replace (a <? N + 1) with true by (symmetry; apply Z.ltb_lt; lia));
    apply sat_bind.
  - replace (a + 1) with K by lia.
    eapply sat_weaken; [apply attempt_succeeds|]. cbv beta.
    intros r w1 t1 (v & -> & -> & Hin). apply sat_ret.
    exists v, [], w. now repeat split.
  - eapply sat_weaken; [apply (attempt_fails_before (a + 1) w); lia|]. cbv beta.
    intros r w1 t1 (-> & e & rest & -> & Hrest).
    eapply sat_weaken; [apply (IH fuel (a + 1) w1); lia|]. cbv beta.
    intros out w2 t2 (v & pre & w0 & -> & -> & Hin & Hcount).
    exists v, (EvInput (a + 1) (Some e) :: rest ++ pre), w0.
    repeat split; try assumption.
    + cbn [app]. now rewrite <- app_assoc.
    + cbn [app invocations]. rewrite invocations_app, Hrest. cbn [Nat.add].
      now rewrite Hcount.
Qed.
End EventualSuccess.

Section Settling.
Context {W T : Type}.
Variable isNetworkError : value -> bool.
Variable host : Runtime W.
Variable input : InputFunction W T.

Local Abbreviation pRetry' := (pRetry (T:=T) isNetworkError host).

(** An operation that fails on the attempts before the [K]-th with
    errors the loop retries, and resolves on the [K]-th, is invoked exactly
    [K] times when [retries] allows as many (no signal, no limit on the
    time, a hook that returns, a predicate that says [true]): [pRetry]
    resolves with the value of the [K]-th invocation, which ends the run. *)
Theorem succeeds_after_failures (N K : Z) fuel (options : Options.t W) w :
  retries (merge options) = of_Z N ->
  1 <= K <= N + 1 ->
  Options.signal options = None ->
  maxRetryTime (merge options) = PosInf ->
  (forall c w0, exists w1, onFailedAttempt (merge options) c w0 = (Fulfilled tt, w1)) ->
  (forall c w0, exists w1, shouldRetry (merge options) c w0 = (Fulfilled true, w1)) ->
  (forall k w0, 1 <= k < K ->
     exists e w1 err,
       input k w0 = (Rejected e, w1)
       /\ toError e = Fulfilled err /\ isFatal isNetworkError e err = false) ->
  (forall w0, exists v w1, input K w0 = (Fulfilled v, w1)) ->
  (Z.to_nat K <= fuel)%nat ->
  exists v pre w0 w',
    pRetry' fuel input options w = (Normal v, w', pre ++ [EvInput K None])
    /\ input K w0 = (Fulfilled v, w')
    /\ invocations (pre ++ [EvInput K None]) = Z.to_nat K.
Proof.
  intros HN HK Hsignal Htime Hhook Hshould Hfails Hsucceeds Hfuel.
  assert (Hsat : sat (pRetry' fuel input options) w (fun out w' t =>
            exists v pre w0,
              out = Normal v /\ t = pre ++ [EvInput K None]
              /\ input K w0 = (Fulfilled v, w')
              /\ invocations t = S (Z.to_nat (K - 1)))).
  { unfold pRetry. rewrite HN, Htime, lt_of_Z.
    replace (N <? 0) with false by (symmetry; apply Z.ltb_ge; lia).
    rewrite andb_false_r.
    unfold signal_throwIfAborted, now_call. cbn [signal merge]. rewrite Hsignal.
    wp. cbn [app].
    apply (loop_eventual_success isNetworkError host input _ (Date_now host w) N K);
      try assumption; try lia. }
  destruct (pRetry' fuel input options w) as [[out w'] t] eqn:Hrun.
  destruct (sat_run _ _ _ _ _ _ Hsat Hrun) as (v & pre & w0 & -> & -> & Hin & Hc).
  exists v, pre, w0, w'. repeat split; try assumption.
  rewrite Hc. lia.
Qed.
End Settling.

(** ** A budget of time that is spent at the start *)

Lemma no_time_left (now start : Z) (limit : number) :
  start <= now ->
  (limit <=? of_Z 0)%js = true ->
  (of_Z now - of_Z start >=? limit)%js = true.
Proof.
  intros Hle Hlimit. destruct limit as [| |q|]; try discriminate Hlimit; [reflexivity|].
  apply le_Fin in Hlimit. apply ge_Fin.
  apply Qle_trans with (inject_Z 0); [exact Hlimit|].
  rewrite <- inject_Z_opp, <- inject_Z_plus, <- Zle_Qle. lia.
Qed.

Section OutOfTime.
Context {W T : Type}.
Variable isNetworkError : value -> bool.
Variable host : Runtime W.
Variable input : InputFunction W T.
Variable mergedOptions : MergedOptions W.
Variable startTime : Z.
Variable maxRetryTime : number.

Hypothesis Hlimit : (maxRetryTime <=? of_Z 0)%js = true.
Hypothesis Hclock : forall w, startTime <= Date_now host w.

Local Abbreviation attempt' :=
  (attempt (T:=T) isNetworkError host input mergedOptions startTime maxRetryTime).
Local Abbreviation loop' fuel :=
  (loop isNetworkError host fuel input mergedOptions startTime maxRetryTime).

(** The first test of the [catch] block stops the pass: it does not go
    on to another attempt, the predicate is not asked, no timer is armed. *)
Lemma attempt_out_of_time k w :
  sat (attempt' k) w (fun r _ t =>
    r <> Normal Next
    /\ forall pre ev post, t = pre ++ ev :: post ->
         (forall c answer, ev <> EvShouldRetry c answer)
         /\ (forall ms, ev <> EvSetTimeout ms)).
Proof.
  unfold_attempt. wp.
  all: try match goal with
       | H : (of_Z (Date_now host ?x) - of_Z startTime >=? maxRetryTime)%js = false |- _ =>
           rewrite (no_time_left _ _ _ (Hclock x) Hlimit) in H; discriminate H
       end.
  all: cbn [app thrown_of]; (split; [discriminate|]).
  all: intros pre ev post Hs; split_trace Hs; try discriminate.
  all: subst; split; intros; discriminate.
Qed.

Lemma loop_out_of_time fuel a w :
  sat (loop' fuel a) w (fun _ _ t => (invocations t <= 1)%nat).
Proof.
  destruct fuel as [|fuel]; cbn [loop]; [apply sat_diverge; cbn; lia|].
  destruct (_ <? _)%js; [|apply sat_throw; cbn; lia].
  apply sat_bind.
  eapply sat_weaken;
    [apply (sat_both _ _ _ _ (attempt_invokes_at_most_once isNetworkError host input
                                mergedOptions startTime maxRetryTime (a + 1) w)
              (attempt_out_of_time (a + 1) w))|].
  cbv beta. intros r w1 t1 [Hcount [Hnext _]].
  destruct r as [[v|]|e|]; try contradiction.
  - apply sat_ret. rewrite List.app_nil_r. exact Hcount.
  - exact Hcount.
  - exact Hcount.
Qed.
End OutOfTime.

Section OutOfTimeRun.
Context {W T : Type}.
Variable isNetworkError : value -> bool.
Variable host : Runtime W.
Variable input : InputFunction W T.

Local Abbreviation pRetry' := (pRetry (T:=T) isNetworkError host).

(** With a [maxRetryTime] of zero or less, and a clock that does not go
    back behind its reading at the call, there is no retry: the operation is
    invoked at most once, [shouldRetry] is never asked and no timer is
    armed, however many [retries] are allowed. *)
Theorem no_time_no_retry fuel (options : Options.t W) w out w' tr :
  (maxRetryTime (merge options) <=? of_Z 0)%js = true ->
  (forall w1, Date_now host w <= Date_now host w1) ->
  pRetry' fuel input options w = (out, w', tr) ->
  (invocations tr <= 1)%nat
  /\ forall pre ev post, tr = pre ++ ev :: post ->
       (forall c answer, ev <> EvShouldRetry c answer)
       /\ (forall ms, ev <> EvSetTimeout ms).
Proof.
  intros Hlimit Hclock Hrun. split.
  - refine (sat_run _ _ (fun _ _ t => (invocations t <= 1)%nat) _ _ _ _ Hrun).
    unfold pRetry.
    destruct (_ && _); [apply sat_throw; cbn; lia|].
    pose proof (loop_out_of_time isNetworkError host input (merge options)
                  (Date_now host w) (maxRetryTime (merge options)) Hlimit Hclock fuel 0 w)
      as Hloop.
    unfold signal_throwIfAborted, now_call. cbn [signal merge].
    destruct (Options.signal options) as [sg|]; wp.
    + cbn. lia.
    + cbn [app]. exact Hloop.
    + cbn [app]. exact Hloop.
  - intros pre ev post Hs.
    destruct (pRetry_pass _ _ _ _ _ _ _ _ _ _ _ _ Hrun Hs)
      as (k & w0 & r & w1 & p1 & p2 & before & after & Hpass & _).
    destruct (sat_run _ _ _ _ _ _
                (attempt_out_of_time isNetworkError host input (merge options)
                   (Date_now host w) (maxRetryTime (merge options)) Hlimit Hclock k w0)
                Hpass) as [_ H].
    exact (H _ _ _ eq_refl).
Qed.

(** An operation that checks a signal with the helper [throwIfAborted] and
    lets its throw escape ends the run at that attempt: [pRetry] rejects
    with the [AbortError] the helper made, whose cause is the reason of the
    signal, and nothing is called after the failed invocation. *)
Theorem throwIfAborted_stops_run fuel (options : Options.t W) w out w' tr
    pre k e sg post :
  pRetry' fuel input options w = (out, w', tr) ->
  tr = pre ++ EvInput k (Some e) :: post ->
  throwIfAborted (Some sg) = Rejected e ->
  post = [] /\ out = Throw e
  /\ aborted sg = true /\ cause_of e = Some (reason sg).
Proof.
  intros Hrun Hs Hthrown.
  assert (He : aborted sg = true /\ e = AbortError.fromSignal sg).
  { unfold throwIfAborted in Hthrown.
    destruct (aborted sg); [split; congruence|discriminate Hthrown]. }
  destruct He as [Haborted ->].
  destruct (pRetry_pass _ _ _ _ _ _ _ _ _ _ _ _ Hrun Hs)
    as (k' & w0 & r & w1 & p1 & p2 & before & after & Hpass & _ & _ & -> & -> & _ & Hend).
  destruct (sat_run _ _ _ _ _ _ (attempt_fatal _ _ _ _ _ _ k' w0) Hpass
              _ _ _ _ eq_refl (or_introl eq_refl)) as [-> ->].
  destruct Hend as [Hend|(-> & _ & Hout & _)]; [discriminate Hend|].
  repeat split; try assumption.
  now apply thrown_by_Some.
Qed.
End OutOfTimeRun.

(** ** The delay with jitter *)

(** *** Rounding to the nearest integer *)

Lemma round_half_even_bounds (n d : Z) :
  0 < d ->
  2 * round_half_even n d * d - d <= 2 * n <= 2 * round_half_even n d * d + d.
Proof.
  intros Hd. unfold round_half_even.
  pose proof (Z.div_mod n d ltac:(lia)) as Hn.
  pose proof (Z.mod_pos_bound n d Hd) as Hr.
  destruct (Z.compare_spec (2 * (n mod d)) d) as [E|E|E];
    [destruct (Z.even (n / d))| |]; nia.
Qed.

Lemma round_half_even_comp (n d n' d' : Z) :
  0 < d -> 0 < d' -> n * d' = n' * d ->
  round_half_even n d = round_half_even n' d'.
Proof.
  intros Hd Hd' H. unfold round_half_even.
  pose proof (Z.div_mod n d ltac:(lia)) as Hn.
  pose proof (Z.mod_pos_bound n d Hd) as Hr.
  pose proof (Z.div_mod n' d' ltac:(lia)) as Hn'.
  pose proof (Z.mod_pos_bound n' d' Hd') as Hr'.
  assert (Hq : n / d = n' / d').
  { apply Z.le_antisymm.
    - apply Z.div_le_lower_bound; [lia|].
      assert (d * (d' * (n / d)) <= d * n'); [nia|].
      nia.
    - apply Z.div_le_lower_bound; [lia|].
      assert (d' * (d * (n' / d')) <= d' * n); [nia|].
      nia. }
  assert (Hm : (n mod d) * d' = (n' mod d') * d) by nia.
  rewrite <- Hq.
  destruct (Z.compare_spec (2 * (n mod d)) d) as [E|E|E];
    destruct (Z.compare_spec (2 * (n' mod d')) d') as [E'|E'|E'];
    try reflexivity; exfalso; nia.
Qed.

Lemma round_half_even_mono (n d n' d' : Z) :
  0 < d -> 0 < d' -> n * d' <= n' * d ->
  round_half_even n d <= round_half_even n' d'.
Proof.
  intros Hd Hd' H.
  destruct (Z.eq_dec (n * d') (n' * d)) as [E|E].
  - rewrite (round_half_even_comp n d n' d'); [lia|assumption..].
  - pose proof (round_half_even_bounds n d Hd) as [Hlo _].
    pose proof (round_half_even_bounds n' d' Hd') as [_ Hhi].
    destruct (Z_le_gt_dec (round_half_even n d) (round_half_even n' d')) as [|Hgt];
      [assumption|exfalso].
    assert (H1 : (2 * round_half_even n' d' + 1) * d <= 2 * n) by nia.
    assert (H2 : 2 * n' <= (2 * round_half_even n' d' + 1) * d') by nia.
    assert (H3 : (2 * round_half_even n' d' + 1) * d * d' <= 2 * n * d') by nia.
    assert (H4 : 2 * n' * d <= (2 * round_half_even n' d' + 1) * d' * d) by nia.
    nia.
Qed.

Lemma round_half_even_mul (c d : Z) : 0 < d -> round_half_even (c * d) d = c.
Proof.
  intros Hd. unfold round_half_even.
  rewrite Z.mod_mul, Z.div_mul by lia. cbn.
  destruct d; try lia; reflexivity.
Qed.

(** *** Powers of two *)

Local Abbreviation P2 z := (2 ^ z)%Q.

Lemma P2_pos (z : Z) : (0 < P2 z)%Q.
Proof. apply Qpower_0_lt. reflexivity. Qed.

Lemma P2_add (a b : Z) : (P2 (a + b) == P2 a * P2 b)%Q.
Proof. apply Qpower_plus. discriminate. Qed.

Lemma P2_inject (z : Z) : 0 <= z -> (inject_Z (2 ^ z) == P2 z)%Q.
Proof. intros H. now rewrite Zpower_Qpower. Qed.

Lemma P2_le (a b : Z) : a <= b -> (P2 a <= P2 b)%Q.
Proof. intros H. apply Qpower_le_compat_l; [assumption|]. unfold Qle. cbn. lia. Qed.

Lemma P2_lt_inv (a b : Z) : (P2 a < P2 b)%Q -> a < b.
Proof. intros H. apply (Qpower_lt_compat_l_inv 2); [assumption|reflexivity]. Qed.

(** [scaled k u] is [k * 2 ^ u]. *)
Lemma scaled_spec (k u : Z) : (scaled k u == inject_Z k * P2 u)%Q.
Proof.
  unfold scaled. destruct (0 <=? u) eqn:E.
  - apply Z.leb_le in E. rewrite inject_Z_mult, P2_inject by assumption. reflexivity.
  - apply Z.leb_gt in E.
    assert (Hp : 0 < 2 ^ (- u)) by (apply Z.pow_pos_nonneg; lia).
    rewrite (Qmake_Qdiv k (Z.to_pos (2 ^ (- u)))).
    rewrite Z2Pos.id by assumption.
    rewrite P2_inject by lia.
    replace u with (- - u) at 2 by lia. rewrite (Qpower_opp 2 (- u)).
    reflexivity.
Qed.

(** *** The binade of a positive rational *)

Lemma Qmake_le_mul (n : Z) (d : positive) (x : Q) :
  (x <= n # d)%Q <-> (x * inject_Z (Zpos d) <= inject_Z n)%Q.
Proof.
  rewrite (Qmake_Qdiv n d). split; intros H.
  - apply Qle_shift_div_l in H || idtac.
    apply (Qmult_le_r _ _ (/ inject_Z (Z.pos d))).
    + apply Qinv_lt_0_compat. reflexivity.
    + rewrite <- Qmult_assoc, Qmult_inv_r, Qmult_1_r by discriminate. exact H.
  - apply Qle_shift_div_l; [reflexivity|exact H].
Qed.

Lemma Qmake_lt_mul (n : Z) (d : positive) (x : Q) :
  (n # d < x)%Q <-> (inject_Z n < x * inject_Z (Zpos d))%Q.
Proof.
  rewrite (Qmake_Qdiv n d). split; intros H.
  - apply (Qmult_lt_r _ _ (/ inject_Z (Z.pos d))).
    + apply Qinv_lt_0_compat. reflexivity.
    + rewrite <- (Qmult_assoc x), Qmult_inv_r, Qmult_1_r by discriminate. exact H.
  - apply Qlt_shift_div_r; [reflexivity|exact H].
Qed.

Lemma binade_spec (n : Z) (d : positive) :
  0 < n ->
  (P2 (binade n d) <= n # d)%Q /\ (n # d < P2 (binade n d + 1))%Q.
Proof.
  intros Hn.
  pose proof (Z.log2_spec n Hn) as [Ha1 Ha2].
  pose proof (Z.log2_spec (Zpos d) ltac:(lia)) as [Hb1 Hb2].
  pose proof (Z.log2_nonneg n) as Ha0.
  pose proof (Z.log2_nonneg (Zpos d)) as Hb0.
  set (a := Z.log2 n) in *. set (b := Z.log2 (Zpos d)) in *.
  rewrite Z.pow_succ_r in Ha2, Hb2 by assumption.
  rewrite Zle_Qle in Ha1, Hb1. rewrite Zlt_Qlt in Ha2, Hb2.
  rewrite inject_Z_mult, P2_inject in Ha2, Hb2 by assumption.
  rewrite P2_inject in Ha1, Hb1 by assumption.
  change (inject_Z 2) with 2%Q in Ha2, Hb2.
  set (A := inject_Z n) in *. set (B := inject_Z (Zpos d)) in *.
  assert (Ea : (P2 a == P2 (a - b) * P2 b)%Q) by (rewrite <- P2_add; now replace (a - b + b) with a by lia).
  assert (E1 : (P2 (a - b + 1) == 2 * P2 (a - b))%Q) by (rewrite P2_add; change (P2 1) with 2%Q; ring).
  assert (E2 : (P2 (a - b) == 2 * P2 (a - b - 1))%Q).
  { replace (a - b) with (a - b - 1 + 1) at 1 by lia. rewrite P2_add. change (P2 1) with 2%Q. ring. }
  pose proof (P2_pos (a - b)) as Hp. pose proof (P2_pos (a - b - 1)) as Hp1.
  pose proof (P2_pos b) as Hpb.
  assert (HT : (if 0 <=? a - b then Zpos d * 2 ^ (a - b) <=? n
                else Zpos d <=? n * 2 ^ (- (a - b))) = true
               <-> (P2 (a - b) * B <= A)%Q).
  { destruct (0 <=? a - b) eqn:E.
    - apply Z.leb_le in E. rewrite Z.leb_le, Zle_Qle, inject_Z_mult, P2_inject by assumption.
      fold A B. rewrite Qmult_comm. reflexivity.
    - apply Z.leb_gt in E. rewrite Z.leb_le, Zle_Qle, inject_Z_mult, P2_inject by lia.
      fold A B.
      assert (Ei : (P2 (- (a - b)) * P2 (a - b) == 1)%Q).
      { rewrite <- P2_add. now replace (- (a - b) + (a - b)) with 0 by lia. }
      pose proof (P2_pos (- (a - b))) as Hpn.
      split; intros H.
      + apply (Qmult_le_l _ _ (P2 (- (a - b)))); [assumption|].
        rewrite Qmult_assoc, Ei. lra.
      + apply (Qmult_le_l _ _ (P2 (- (a - b)))) in H; [|assumption].
        rewrite Qmult_assoc, Ei in H. lra. }
  unfold binade. fold a b.
  destruct (if 0 <=? a - b then _ else _) eqn:T.
  - pose proof (proj1 HT eq_refl) as T'. split.
    + apply Qmake_le_mul. exact T'.
    + apply Qmake_lt_mul. fold A B. rewrite E1.
      assert (P2 b <= B)%Q by assumption.
      assert (0 <= P2 (a - b) * (B - P2 b))%Q by (apply Qmult_le_0_compat; lra).
      lra.
  - assert (T' : ~ (P2 (a - b) * B <= A)%Q) by (intros H; apply HT in H; discriminate H).
    apply Qnot_le_lt in T'. split.
    + apply Qmake_le_mul. fold A B.
      assert (0 <= P2 (a - b - 1) * (2 * P2 b - B))%Q by (apply Qmult_le_0_compat; lra).
      assert (P2 a == 2 * P2 (a - b - 1) * P2 b)%Q by (rewrite Ea, E2; ring).
      lra.
    + apply Qmake_lt_mul. fold A B.
      replace (a - b - 1 + 1) with (a - b) by lia. exact T'.
Qed.

(** *** The significand *)

Lemma significand_mono (n n' : Z) (d d' : positive) (u : Z) :
  n * Zpos d' <= n' * Zpos d -> significand n d u <= significand n' d' u.
Proof.
  intros H. unfold significand. destruct (0 <=? u) eqn:E.
  - apply Z.leb_le in E.
    assert (Hp : 0 < 2 ^ u) by (apply Z.pow_pos_nonneg; lia).
    apply round_half_even_mono; nia.
  - apply Z.leb_gt in E.
    assert (Hp : 0 < 2 ^ (- u)) by (apply Z.pow_pos_nonneg; lia).
    apply round_half_even_mono; nia.
Qed.

Lemma significand_le (n : Z) (d : positive) (u c : Z) :
  (n # d <= scaled c u)%Q -> significand n d u <= c.
Proof.
  unfold scaled, significand. destruct (0 <=? u) eqn:E; intros H.
  - apply Z.leb_le in E.
    assert (Hp : 0 < 2 ^ u) by (apply Z.pow_pos_nonneg; lia).
    unfold Qle in H. cbn [Qnum Qden inject_Z] in H.
    assert (HD : 0 < Zpos d * 2 ^ u) by nia.
    assert (Hn : n <= c * (Zpos d * 2 ^ u)) by nia.
    set (D := Zpos d * 2 ^ u) in *.
    rewrite <- (round_half_even_mul c D) at 1 by assumption.
    apply round_half_even_mono; nia.
  - apply Z.leb_gt in E.
    assert (Hp : 0 < 2 ^ (- u)) by (apply Z.pow_pos_nonneg; lia).
    unfold Qle in H. cbn [Qnum Qden] in H. rewrite Z2Pos.id in H by assumption.
    rewrite <- (round_half_even_mul c (Zpos d)) at 1 by lia.
    apply round_half_even_mono; nia.
Qed.

Lemma significand_ge (n : Z) (d : positive) (u c : Z) :
  (scaled c u <= n # d)%Q -> c <= significand n d u.
Proof.
  unfold scaled, significand. destruct (0 <=? u) eqn:E; intros H.
  - apply Z.leb_le in E.
    assert (Hp : 0 < 2 ^ u) by (apply Z.pow_pos_nonneg; lia).
    unfold Qle in H. cbn [Qnum Qden inject_Z] in H.
    assert (HD : 0 < Zpos d * 2 ^ u) by nia.
    assert (Hn : c * (Zpos d * 2 ^ u) <= n) by nia.
    set (D := Zpos d * 2 ^ u) in *.
    rewrite <- (round_half_even_mul c D) at 1 by assumption.
    apply round_half_even_mono; nia.
  - apply Z.leb_gt in E.
    assert (Hp : 0 < 2 ^ (- u)) by (apply Z.pow_pos_nonneg; lia).
    unfold Qle in H. cbn [Qnum Qden] in H. rewrite Z2Pos.id in H by assumption.
    rewrite <- (round_half_even_mul c (Zpos d)) at 1 by lia.
    apply round_half_even_mono; nia.
Qed.

(** *** Rounding keeps the order *)

Lemma nearest_double_mono (q q' : Q) :
  0 < Qnum q -> (q <= q')%Q ->
  (nearest_double q <=? nearest_double q')%js = true.
Proof.
  destruct q as [n d], q' as [n' d']. cbn [Qnum]. intros Hn Hle.
  assert (Hn' : 0 < n').
  { unfold Qle in Hle. cbn [Qnum Qden] in Hle. nia. }
  destruct (binade_spec n d Hn) as [Hlo Hhi].
  destruct (binade_spec n' d' Hn') as [Hlo' Hhi'].
  set (e := binade n d) in *. set (e' := binade n' d') in *.
  assert (He : e <= e').
  { assert (P2 e < P2 (e' + 1))%Q by lra. apply P2_lt_inv in H. lia. }
  unfold nearest_double. cbn [Qnum Qden]. fold e e'.
  set (u := Z.max (e - 52) (-1074)). set (u' := Z.max (e' - 52) (-1074)).
  set (k := significand n d u). set (k' := significand n' d' u').
  assert (Hval : (scaled k u <= scaled k' u')%Q).
  { destruct (Z.eq_dec u u') as [Eu|Eu].
    - assert (Hk : k <= k').
      { unfold k, k'. rewrite <- Eu. apply significand_mono.
        unfold Qle in Hle. cbn [Qnum Qden] in Hle. exact Hle. }
      rewrite !scaled_spec, <- Eu. apply Qmult_le_compat_r.
      + now rewrite <- Zle_Qle.
      + apply Qlt_le_weak, P2_pos.
    - assert (Hu : u < u') by lia.
      assert (Hu' : u' = e' - 52) by lia.
      assert (Hee : e + 1 <= e') by lia.
      assert (Hpow : (scaled (2 ^ (e' - u)) u == P2 e')%Q).
      { rewrite scaled_spec, P2_inject, <- P2_add by lia.
        now replace (e' - u + u) with e' by lia. }
      assert (Hpow' : (scaled (2 ^ 52) u' == P2 e')%Q).
      { rewrite scaled_spec, P2_inject, <- P2_add by lia.
        now replace (52 + u') with e' by lia. }
      assert (Hk : k <= 2 ^ (e' - u)).
      { apply significand_le. rewrite Hpow.
        pose proof (P2_le (e + 1) e' Hee). lra. }
      assert (Hk' : 2 ^ 52 <= k').
      { apply significand_ge. now rewrite Hpow'. }
      rewrite Zle_Qle in Hk, Hk'.
      apply Qle_trans with (P2 e').
      + rewrite <- Hpow, !scaled_spec. apply Qmult_le_compat_r; [exact Hk|].
        apply Qlt_le_weak, P2_pos.
      + rewrite <- Hpow', !scaled_spec. apply Qmult_le_compat_r; [exact Hk'|].
        apply Qlt_le_weak, P2_pos. }
  destruct ((0 <=? u') && (2 ^ 1024 <=? k' * 2 ^ u')) eqn:Ov'.
  - now destruct ((0 <=? u) && (2 ^ 1024 <=? k * 2 ^ u)).
  - destruct ((0 <=? u) && (2 ^ 1024 <=? k * 2 ^ u)) eqn:Ov.
    + exfalso. apply andb_prop in Ov. destruct Ov as [Hu0 Hbig].
      apply Z.leb_le in Hu0, Hbig.
      assert (Hu0' : 0 <= u') by lia.
      unfold scaled in Hval.
      replace (0 <=? u) with true in Hval by (symmetry; now apply Z.leb_le).
      replace (0 <=? u') with true in Hval by (symmetry; now apply Z.leb_le).
      rewrite <- Zle_Qle in Hval.
      apply andb_false_iff in Ov'. destruct Ov' as [H|H].
      * apply Z.leb_gt in H. lia.
      * apply Z.leb_gt in H. lia.
    + apply le_Fin. now apply Qred_le.
Qed.

Lemma binary64_mono (q q' : Q) :
  (0 < q)%Q -> (q <= q')%Q ->
  (binary64 (Fin q) <=? binary64 (Fin q'))%js = true.
Proof.
  intros Hq Hle. unfold binary64.
  assert (Hpos : forall x, (0 < x)%Q -> (Qnum (Qred x) ?= 0) = Gt).
  { intros x Hx. rewrite <- (Qred_correct x) in Hx.
    unfold Qlt in Hx. cbn in Hx. apply Z.compare_gt_iff. lia. }
  rewrite (Hpos q Hq), (Hpos q') by lra.
  apply nearest_double_mono.
  - specialize (Hpos q Hq). apply Z.compare_gt_iff in Hpos. lia.
  - now apply Qred_le.
Qed.

(** *** The order of numbers *)

Lemma lt_Fin_iff (a b : Q) : (Fin a <? Fin b)%js = true <-> (a < b)%Q.
Proof.
  unfold JS.lt, JS.compare. rewrite Qlt_alt.
  destruct (Qcompare a b); split; congruence || discriminate.
Qed.

Lemma Math_round_mono (a b : number) :
  (a <=? b)%js = true -> (Math_round a <=? Math_round b)%js = true.
Proof.
  destruct a as [| |x|], b as [| |y|]; try reflexivity; try discriminate.
  rewrite le_Fin. intros H. unfold Math_round, of_Z. apply le_Fin.
  rewrite <- Zle_Qle. apply Qfloor_resp_le. lra.
Qed.

Lemma Math_min_mono (a b c : number) :
  (a <=? b)%js = true -> c <> NaN ->
  (Math_min a c <=? Math_min b c)%js = true.
Proof.
  intros H Hc.
  destruct a as [| |x|], b as [| |y|]; try discriminate H;
    destruct c as [| |z|]; try congruence; try reflexivity.
  all: unfold Math_min.
  all: try (destruct (Fin z <? Fin x)%js eqn:E1);
       try (destruct (Fin z <? Fin y)%js eqn:E2);
       try reflexivity; try assumption.
  all: try (apply le_Fin).
  all: try (apply le_Fin in H).
  all: try (apply lt_Fin_iff in E1).
  all: try (apply lt_Fin_iff in E2).
  all: try lra.
  all: try (assert (~ (z < x)%Q) by (intros C; apply lt_Fin_iff in C; congruence)).
  all: try (assert (~ (z < y)%Q) by (intros C; apply lt_Fin_iff in C; congruence)).
  all: try (apply Qnot_lt_le; assumption).
  all: try lra.
Qed.

(** *** Products *)

Lemma binary64_1 : binary64 (Fin 1) = Fin 1.
Proof. vm_compute. reflexivity. Qed.

Lemma binary64_2 : binary64 (Fin 2) = Fin 2.
Proof. vm_compute. reflexivity. Qed.

(** The product with a double that is not negative keeps the order of the
    other factor. *)
Lemma mul_mono_l (a b p : Q) :
  (0 < a)%Q -> (a <= b)%Q -> (0 <= p)%Q ->
  binary64 (Fin p) = Fin p ->
  (Fin a * Fin p <=? Fin b * Fin p)%js = true.
Proof.
  intros Ha Hab Hp Hd.
  assert (Hv : forall x, (0 < x)%Q ->
            (Fin x * Fin p)%js
            = (if Qeq_bool p 1 then Fin x else binary64 (Fin (x * p)))
            \/ (Qeq_bool p 1 = true /\ (x == 1)%Q /\ (Fin x * Fin p)%js = Fin p)).
  { intros x Hx. unfold JS.mul. destruct (Qeq_bool x 1) eqn:Ex.
    - apply Qeq_bool_eq in Ex. destruct (Qeq_bool p 1) eqn:Ep.
      + right. now repeat split.
      + left. rewrite <- Hd at 1. apply binary64_comp. rewrite Ex. ring.
    - left. reflexivity. }
  destruct (Qeq_bool p 1) eqn:Ep.
  - pose proof Ep as Ep'. apply Qeq_bool_eq in Ep'.
    destruct (Hv a Ha) as [->|(_ & Ea & ->)], (Hv b ltac:(lra)) as [->|(_ & Eb & ->)];
      apply le_Fin; lra.
  - destruct (Hv a Ha) as [->|(C & _)]; [|discriminate C].
    destruct (Hv b ltac:(lra)) as [->|(C & _)]; [|discriminate C].
    destruct (Qeq_dec p 0) as [E0|E0].
    + rewrite (binary64_zero (a * p)), (binary64_zero (b * p)); [reflexivity| |];
        rewrite E0; ring.
    + assert (0 < p)%Q.
      { destruct (Qlt_le_dec 0 p) as [|C]; [assumption|]. exfalso. apply E0. lra. }
      apply binary64_mono.
      * apply Qmult_lt_0_compat; assumption.
      * apply Qmult_le_compat_r; lra.
Qed.

Lemma Math_max_ge_1 (a : number) (m : Q) :
  Math_max a (of_Z 1) = Fin m -> (1 <= m)%Q.
Proof.
  unfold Math_max. destruct a as [| |x|]; try discriminate.
  - cbn. intros [= <-]. apply Qle_refl.
  - destruct (Fin x <? of_Z 1)%js eqn:E; intros [= <-].
    + apply Qle_refl.
    + destruct (Qlt_le_dec x 1) as [C|C]; [|assumption].
      apply lt_Fin_iff in C. unfold of_Z in E. change (inject_Z 1) with 1%Q in E.
      congruence.
Qed.

Lemma ge_0_Fin (p : Q) : (Fin p >=? of_Z 0)%js = true -> (0 <= p)%Q.
Proof.
  intros H. apply ge_Fin in H. exact H.
Qed.

Section Jitter.
Context {W : Type}.
Variable host : Runtime W.
Variable options : MergedOptions W.

(** The random factor [Math.random() + 1] lies between one and two. *)
Lemma jitter_factor (r : Q) :
  (0 <= r)%Q -> (r < 1)%Q ->
  exists rho, binary64 (Fin r + of_Z 1)%js = Fin rho /\ (1 <= rho <= 2)%Q.
Proof.
  intros H0 H1. cbn [JS.add of_Z]. change (inject_Z 1) with 1%Q.
  pose proof (binary64_mono 1 (r + 1) ltac:(lra) ltac:(lra)) as Hlo.
  pose proof (binary64_mono (r + 1) 2 ltac:(lra) ltac:(lra)) as Hhi.
  rewrite binary64_1 in Hlo. rewrite binary64_2 in Hhi.
  destruct (binary64 (Fin (r + 1))) as [| |rho|]; try discriminate.
  exists rho. apply le_Fin in Hlo, Hhi. split; [reflexivity|lra].
Qed.

(** The first product: the base times the random factor is a double
    between the base and its double. *)
Lemma jitter_base (rho m h : Q) :
  (1 <= rho <= 2)%Q -> (1 <= m)%Q ->
  binary64 (Fin m) = Fin m ->
  (of_Z 2 * Fin m)%js = Fin h ->
  exists x, (Fin rho * Fin m)%js = Fin x /\ (m <= x <= h)%Q.
Proof.
  intros Hrho Hm Hmd Hh.
  assert (Hh2 : (if Qeq_bool m 1 then Fin 2 else binary64 (Fin (2 * m))) = Fin h).
  { rewrite <- Hh. unfold JS.mul, of_Z. change (Qeq_bool (inject_Z 2) 1) with false.
    cbv iota. destruct (Qeq_bool m 1); reflexivity. }
  unfold JS.mul. destruct (Qeq_bool rho 1) eqn:E1.
  - exists m. split; [reflexivity|]. split; [lra|].
    destruct (Qeq_bool m 1) eqn:E2.
    + apply Qeq_bool_eq in E2. injection Hh2 as <-. lra.
    + pose proof (binary64_mono m (2 * m) ltac:(lra) ltac:(lra)) as Hmono.
      rewrite Hmd, Hh2 in Hmono. now apply le_Fin.
  - destruct (Qeq_bool m 1) eqn:E2.
    + apply Qeq_bool_eq in E2. injection Hh2 as <-.
      exists rho. split; [reflexivity|lra].
    + assert (Hle : (m <= rho * m)%Q).
      { assert (0 <= (rho - 1) * m)%Q by (apply Qmult_le_0_compat; lra). lra. }
      assert (Hle2 : (rho * m <= 2 * m)%Q) by (apply Qmult_le_compat_r; lra).
      pose proof (binary64_mono m (rho * m) ltac:(lra) Hle) as Hlo.
      pose proof (binary64_mono (rho * m) (2 * m) ltac:(lra) Hle2) as Hhi.
      rewrite Hmd in Hlo. rewrite Hh2 in Hhi.
      destruct (binary64 (Fin (rho * m))) as [| |x|]; try discriminate.
      exists x. apply le_Fin in Hlo, Hhi. split; [reflexivity|lra].
Qed.

(** The second product keeps the order. *)
Lemma jitter_scaled (a b : Q) (P : number) :
  (0 < a)%Q -> (a <= b)%Q ->
  binary64 P = P -> (P >=? of_Z 0)%js = true ->
  (Fin a * P <=? Fin b * P)%js = true.
Proof.
  intros Ha Hab HPd HP0. destruct P as [| |p|]; try discriminate HP0.
  - apply mul_mono_l; try assumption. now apply ge_0_Fin.
  - cbn. replace (Qcompare a 0) with Gt by (symmetry; rewrite <- Qgt_alt; lra).
    now replace (Qcompare b 0) with Gt by (symmetry; rewrite <- Qgt_alt; lra).
Qed.

(** With [randomize] set, [calculateDelay] draws one random number [r]
    and scales the base [max(minTimeout, 1)] by [r + 1] before it goes on
    as without jitter.  Rounding keeps the order, so for [0 <= r < 1] the
    delay is not below the delay without jitter and not above the delay that
    the factor two would give (the base a double that can be doubled, the
    power a double that is not negative; each of the three may be
    [Infinity]). *)
Theorem jittered_delay_bounds (i : Z) (w w1 : W) (r m h : Q) (P : number) :
  randomize options = true ->
  Math_random host w = (Fin r, w1) ->
  (0 <= r)%Q -> (r < 1)%Q ->
  Math_max (minTimeout options) (of_Z 1) = Fin m ->
  binary64 (Fin m) = Fin m ->
  (of_Z 2 * Fin m)%js = Fin h ->
  pow (Number_exponentiate host) (factor options) (i - 1) = P ->
  binary64 P = P ->
  (P >=? of_Z 0)%js = true ->
  maxTimeout options <> NaN ->
  exists D,
    calculateDelay host i options w = (Normal D, w1, [])
    /\ (plainDelay host options i <=? D)%js = true
    /\ (D <=? Math_min (Math_round (of_Z 2 * Fin m * P)) (maxTimeout options))%js = true.
Proof.
  intros Hrand HR Hr0 Hr1 Hm Hmd Hh HP HPd HP0 Hmax.
  destruct (jitter_factor r Hr0 Hr1) as (rho & Hrho & Hrho1).
  pose proof (Math_max_ge_1 _ _ Hm) as Hm1.
  destruct (jitter_base rho m h Hrho1 Hm1 Hmd Hh) as (x & Hx & Hxm).
  eexists. split; [|split].
  - unfold calculateDelay, random_call, step, bind, ret.
    rewrite Hrand, HR. cbn [app]. rewrite Hrho, Hm, HP, Hx. reflexivity.
  - unfold plainDelay. rewrite Hm, HP.
    apply Math_min_mono; [|assumption]. apply Math_round_mono.
    apply jitter_scaled; try assumption; lra.
  - rewrite Hh.
    apply Math_min_mono; [|assumption]. apply Math_round_mono.
    apply jitter_scaled; try assumption; lra.
Qed.
End Jitter.

(** ** Success at the first attempt *)

Section FirstSuccess.
Context {W T : Type}.
Variable isNetworkError : value -> bool.
Variable host : Runtime W.

(** A pass whose invocation resolves, with a signal that is clear before
    and after it, returns the value and calls nothing else. *)
Lemma attempt_resolves (input : InputFunction W T) mergedOptions startTime maxRetryTime
    k w v w1 :
  signal_clear (signal mergedOptions) w ->
  input k w = (Fulfilled v, w1) ->
  signal_clear (signal mergedOptions) w1 ->
  attempt isNetworkError host input mergedOptions startTime maxRetryTime k w
  = (Normal (Return v), w1, [EvInput k None]).
Proof.
  intros Hclear Hin Hclear1.
  destruct (attempt isNetworkError host input mergedOptions startTime maxRetryTime k w)
    as [[r w'] t] eqn:Hrun.
  refine (sat_run _ _ (fun r w' t => (r, w', t) = (Normal (Return v), w1, [EvInput k None]))
            _ _ _ _ Hrun).
  unfold_attempt. wp.
  all: try (exfalso; match goal with
            | Hc : signal_clear (Some ?sg) _ |- _ => specialize (Hc sg eq_refl); congruence
            end).
  all: match goal with
       | H : _ = (_, _) |- _ =>
           rewrite Hin in H; try discriminate H; injection H as ? ?; subst
       end.
  all: try (exfalso; match goal with
            | Hc : signal_clear (Some ?sg) _ |- _ => specialize (Hc sg eq_refl); congruence
            end).
  all: reflexivity.
Qed.

(** The function [makeRetriable] returns is transparent when the wrapped
    function resolves at once: it is called one time, with the arguments of
    the call, its value is returned, and neither a hook nor a timer is
    touched ([retries] not negative, the signal not aborted before or after
    the call). *)
Theorem makeRetriable_transparent {Args : Type} (fn : Args -> W -> Settled T * W)
    (options : Options.t W) fuel (args : Args) w v w1 :
  (retries (merge options) >=? of_Z 0)%js = true ->
  signal_clear (Options.signal options) w ->
  fn args w = (Fulfilled v, w1) ->
  signal_clear (Options.signal options) w1 ->
  makeRetriable isNetworkError host fn options (S fuel) args w
  = (Normal v, w1, [EvInput 1 None]).
Proof.
  intros Hr Hclear Hfn Hclear1.
  destruct (nonnegative_retries _ Hr) as [Hvalid Hguard].
  assert (Hloop : loop isNetworkError host (S fuel) (fun _ => fn args) (merge options)
                    (Date_now host w) (maxRetryTime (merge options)) 0 w
                  = (Normal v, w1, [EvInput 1 None])).
  { cbn [loop]. rewrite Hguard. unfold bind at 1.
    now rewrite (attempt_resolves (fun _ => fn args) (merge options) (Date_now host w)
                   (maxRetryTime (merge options)) (0 + 1) w v w1 Hclear Hfn Hclear1). }
  destruct (makeRetriable isNetworkError host fn options (S fuel) args w)
    as [[r w'] t] eqn:Hrun.
  refine (sat_run _ _ (fun r w' t => (r, w', t) = (Normal v, w1, [EvInput 1 None]))
            _ _ _ _ Hrun).
  unfold makeRetriable, pRetry. rewrite Hvalid, andb_false_r.
  unfold signal_throwIfAborted, now_call. cbn [signal merge].
  destruct (Options.signal options) as [sg|] eqn:Hsg; wp.
  - exfalso. specialize (Hclear sg eq_refl). congruence.
  - unfold sat. now rewrite Hloop.
  - unfold sat. now rewrite Hloop.
Qed.
End FirstSuccess.

(** ** Retries without end *)

Lemma lt_PosInf_succ (a : Z) : (of_Z a <? PosInf + of_Z 1)%js = true.
Proof. reflexivity. Qed.

Lemma ge_PosInf_succ (k : Z) : (of_Z k >=? PosInf + of_Z 1)%js = false.
Proof. reflexivity. Qed.

Section Forever.
Context {W T : Type}.
Variable isNetworkError : value -> bool.
Variable host : Runtime W.
Variable input : InputFunction W T.
Variable mergedOptions : MergedOptions W.
Variable startTime : Z.

Hypothesis Hretries : retries mergedOptions = PosInf.
Hypothesis Hsignal : signal mergedOptions = None.
Hypothesis Hfails :
  forall k w, exists e w1 err,
    input k w = (Rejected e, w1)
    /\ toError e = Fulfilled err /\ isFatal isNetworkError e err = false.
Hypothesis Hhook :
  forall c w, exists w1, onFailedAttempt mergedOptions c w = (Fulfilled tt, w1).
Hypothesis HshouldRetry :
  forall c w, exists w1, shouldRetry mergedOptions c w = (Fulfilled true, w1).

Local Abbreviation attempt' :=
  (attempt (T:=T) isNetworkError host input mergedOptions startTime PosInf).
Local Abbreviation loop' fuel :=
  (loop isNetworkError host fuel input mergedOptions startTime PosInf).

(** Every pass goes on to the next one. *)
Lemma attempt_fails_forever k w :
  sat (attempt' k) w (fun r _ t =>
    r = Normal Next
    /\ exists e rest, t = EvInput k (Some e) :: rest /\ invocations rest = 0%nat).
Proof.
  unfold_attempt. rewrite Hsignal, Hretries. wp.
  all: match goal with
       | H : input ?k ?w = _ |- _ =>
           destruct (Hfails k w) as (? & ? & ? & Hin & Hte & Hnf);
           rewrite Hin in H; try discriminate H; injection H as ? ?; subst
       end.
  all: match goal with
       | H : toError _ = _ |- _ =>
           rewrite Hte in H; try discriminate H; injection H as ?; subst
       end.
  all: try congruence.
  all: match goal with
       | H : onFailedAttempt _ ?c ?w = _ |- _ =>
           destruct (Hhook c w) as [? Hh]; rewrite Hh in H; try discriminate H
       end.
  all: try match goal with
       | H : (_ >=? PosInf)%js = true |- _ =>
           rewrite ge_PosInf_finite in H; discriminate H
       end.
  all: try match goal with
       | H : (of_Z _ >=? PosInf + of_Z 1)%js = true |- _ =>
           rewrite ge_PosInf_succ in H; discriminate H
       end.
  all: try match goal with
       | H : (_ <=? of_Z 0)%js = true |- _ =>
           rewrite budget_never_spent in H; discriminate H
       end.
  all: try match goal with
       | H : shouldRetry _ ?c ?w = _ |- _ =>
           destruct (HshouldRetry c w) as [? Hs]; rewrite Hs in H; try discriminate H;
           injection H as ? ?; subst
       end.
  all: try discriminate.
  all: cbn [app thrown_of]; (split; [reflexivity|]); eexists _, _;
    (split; [reflexivity|]); reflexivity.
Qed.

(** The loop makes as many passes as it is given fuel for. *)
Lemma loop_forever :
  forall fuel a w,
    sat (loop' fuel a) w (fun out _ t => out = OutOfFuel /\ invocations t = fuel).
Proof.
  induction fuel as [|fuel IH]; intros a w; cbn [loop].
  - apply sat_diverge. now split.
  - rewrite Hretries, lt_PosInf_succ. apply sat_bind.
    eapply sat_weaken; [apply attempt_fails_forever|]. cbv beta.
    intros r w1 t1 (-> & e & rest & -> & Hrest).
    eapply sat_weaken; [apply (IH (a + 1) w1)|]. cbv beta.
    intros out w2 t2 [-> Hcount]. split; [reflexivity|].
    cbn [app invocations]. rewrite invocations_app, Hrest. cbn [Nat.add].
    now rewrite Hcount.
Qed.
End Forever.

Section Budget.
Context {W T : Type}.
Variable isNetworkError : value -> bool.
Variable host : Runtime W.
Variable input : InputFunction W T.

Local Abbreviation pRetry' := (pRetry (T:=T) isNetworkError host).

(** With [retries: Infinity] (no signal, no limit on the time, a hook
    that returns, a predicate that says [true]) an operation that fails on
    every attempt with an error the loop retries is retried without end:
    the run never settles, and whatever number of passes it is given, it
    spends them all on invocations. *)
Theorem infinite_retries_never_settle (fuel : nat) (options : Options.t W) (w : W) :
  Options.retries options = Some PosInf ->
  Options.signal options = None ->
  maxRetryTime (merge options) = PosInf ->
  (forall c w0, exists w1, onFailedAttempt (merge options) c w0 = (Fulfilled tt, w1)) ->
  (forall c w0, exists w1, shouldRetry (merge options) c w0 = (Fulfilled true, w1)) ->
  (forall k w0, exists e w1 err,
      input k w0 = (Rejected e, w1)
      /\ toError e = Fulfilled err /\ isFatal isNetworkError e err = false) ->
  exists w' tr,
    pRetry' fuel input options w = (OutOfFuel, w', tr) /\ invocations tr = fuel.
Proof.
  intros Hretries Hsignal Htime Hhook Hshould Hfails.
  assert (HN : retries (merge options) = PosInf)
    by (cbn [retries merge]; now rewrite Hretries).
  assert (Hsat : sat (pRetry' fuel input options) w (fun out _ t =>
            out = OutOfFuel /\ invocations t = fuel)).
  { unfold pRetry. rewrite HN, Htime. rewrite andb_false_r.
    unfold signal_throwIfAborted, now_call. cbn [signal merge]. rewrite Hsignal.
    wp. cbn [app].
    apply (loop_forever isNetworkError host input _ (Date_now host w)); assumption. }
  destruct (pRetry' fuel input options w) as [[out w'] t] eqn:Hrun.
  destruct (sat_run _ _ _ _ _ _ Hsat Hrun) as [-> Hc].
  now exists w', t.
Qed.

(** No timer outlasts the time budget: when the clock does not go back
    behind its reading at the call, every timer is armed for at most
    [maxRetryTime]. *)
Theorem timer_within_time_budget fuel (options : Options.t W) w out w' tr pre ms post :
  (forall w1, Date_now host w <= Date_now host w1) ->
  pRetry' fuel input options w = (out, w', tr) ->
  tr = pre ++ EvSetTimeout ms :: post ->
  (ms <=? maxRetryTime (merge options))%js = true.
Proof.
  intros Hclock Hrun Hs.
  destruct (pRetry_pass _ _ _ _ _ _ _ _ _ _ _ _ Hrun Hs)
    as (k & w0 & r & w1 & p1 & p2 & before & after & Hpass & _).
  revert Hpass.
  generalize (maxRetryTime (merge options)) as limit.
  generalize (merge options) as mergedOptions.
  intros mergedOptions limit Hpass.
  refine (sat_run _ _ (fun _ _ t => forall pre ms post,
            t = pre ++ EvSetTimeout ms :: post -> (ms <=? limit)%js = true)
            _ _ _ _ Hpass _ _ _ eq_refl).
  unfold_attempt. wp.
  all: cbn [app thrown_of]; intros pre0 ms0 post0 Hs0; split_trace Hs0; try discriminate.
  all: subst.
  all: match goal with
       | H : (Math_min ?d (_ - (of_Z (Date_now host ?x) - of_Z _)) >? of_Z 0)%js = true
         |- _ =>
           apply gt_not_NaN in H;
           destruct (Math_min_le _ _ H) as [_ Hle];
           apply (le_trans _ _ _ Hle);
           pose proof (Hclock x) as Hx;
           assert (Hn : (limit - (of_Z (Date_now host x) - of_Z (Date_now host w)))%js
                        <> NaN)
             by (intros E; apply H; rewrite E; now destruct d)
       end.
  all: destruct limit as [| |q|]; try reflexivity; try (now exfalso; apply Hn).
  all: apply le_Fin; rewrite Zle_Qle in Hx; lra.
Qed.
End Budget.

(** ** The further properties, run *)

Section MoreRuns.
Local Abbreviation isNet := NetworkError.isNetworkError.


(** The predicate is asked after the second failure of three. *)
Lemma shouldRetry_asked_after_hook_witness :
  let options := Demo.options (Some (of_Z 2)) None (Some (of_Z 10)) None None false in
  let run := pRetry isNet Demo.host 10 Demo.alwaysFails options Demo.start in
  let c := createRetryContext Demo.fixtureError 2 (of_Z 2) in
  (exists pre', firstn 6 (snd run) = pre' ++ [EvOnFailedAttempt c None])
  /\ (of_Z (attemptNumber c) >=? retries (merge options) + of_Z 1)%js = false
  /\ forall N, retries (merge options) = of_Z N -> attemptNumber c <= N.
Proof.
  intros options run c.
  apply (shouldRetry_asked_after_hook isNet Demo.host Demo.alwaysFails 10 options Demo.start
           (fst (fst run)) (snd (fst run)) (snd run) (firstn 6 (snd run)) c
           (Fulfilled true) (skipn 7 (snd run))).
  - vm_compute. reflexivity.
  - vm_compute. reflexivity.
Defined.

(** A predicate that throws after the first failure. *)
Lemma shouldRetry_throw_propagates_witness :
  let options := Demo.options (Some (of_Z 2)) None (Some (of_Z 10)) None
                   (Some Fixtures.throwingPredicate) false in
  let run := pRetry isNet Demo.host 10 Demo.alwaysFails options Demo.start in
  skipn 3 (snd run) = [] /\ fst (fst run) = Throw Fixtures.predicateError.
Proof.
  intros options run.
  apply (shouldRetry_throw_propagates isNet Demo.host Demo.alwaysFails 10 options Demo.start
           (fst (fst run)) (snd (fst run)) (snd run) (firstn 2 (snd run))
           (createRetryContext Demo.fixtureError 1 (of_Z 2)) Fixtures.predicateError
           (skipn 3 (snd run))).
  - vm_compute. reflexivity.
  - vm_compute. reflexivity.
Defined.

(** The first timer of a run with [minTimeout: 10] and [maxTimeout: 15]. *)
Lemma timer_armed_after_consent_witness :
  let options := Fixtures.options Demo.World (Some (of_Z 2)) None (Some (of_Z 10))
                   (Some (of_Z 15)) None None None in
  let run := pRetry isNet Demo.host 10 Demo.alwaysFails options Demo.start in
  (exists pre' c, firstn 3 (snd run) = pre' ++ [EvShouldRetry c (Fulfilled true)])
  /\ (of_Z 10 >? of_Z 0)%js = true
  /\ (of_Z 10 <=? maxTimeout (merge options))%js = true.
Proof.
  intros options run.
  apply (timer_armed_after_consent isNet Demo.host Demo.alwaysFails 10 options Demo.start
           (fst (fst run)) (snd (fst run)) (snd run) (firstn 3 (snd run)) (of_Z 10)
           (skipn 4 (snd run))).
  - vm_compute. reflexivity.
  - vm_compute. reflexivity.
Defined.

(** A run with [unref: true]. *)
Lemma unref_follows_option_witness :
  let options := Fixtures.options Demo.World (Some (of_Z 2)) None (Some (of_Z 10))
                   None None None (Some true) in
  let run := pRetry isNet Demo.host 10 Demo.alwaysFails options Demo.start in
  (forall pre ms post,
      snd run = pre ++ EvSetTimeout ms :: post ->
      unref (merge options) = true -> exists post', post = EvUnref :: post')
  /\ (forall pre post,
        snd run = pre ++ EvUnref :: post ->
        unref (merge options) = true
        /\ exists pre' ms, pre = pre' ++ [EvSetTimeout ms]).
Proof.
  intros options run.
  apply (unref_follows_option isNet Demo.host Demo.alwaysFails 10 options Demo.start
           (fst (fst run)) (snd (fst run)) (snd run)).
  vm_compute. reflexivity.
Defined.

(** Two retries: at most three invocations. *)
Lemma invocations_bounded_witness :
  let options := Demo.options (Some (of_Z 2)) None (Some (of_Z 10)) None None false in
  let run := pRetry isNet Demo.host 10 Demo.alwaysFails options Demo.start in
  (invocations (snd run) <= Z.to_nat (2 + 1))%nat.
Proof.
  intros options run.
  apply (invocations_bounded isNet Demo.host Demo.alwaysFails 10 options Demo.start
           (fst (fst run)) (snd (fst run)) (snd run) 2).
  - vm_compute. reflexivity.
  - reflexivity.
Defined.

(** Success on the third attempt. *)
Lemma resolves_with_last_value_witness :
  let options := Demo.options (Some (of_Z 5)) None (Some (of_Z 10)) None None true in
  let run := pRetry isNet Demo.host 10 Fixtures.succeedsOnThird options Demo.start in
  exists pre k w0,
    snd run = pre ++ [EvInput k None]
    /\ Fixtures.succeedsOnThird k w0 = (Fulfilled "unicorn"%string, snd (fst run))
    /\ signal_clear (Options.signal options) (snd (fst run)).
Proof.
  intros options run.
  apply (resolves_with_last_value isNet Demo.host Fixtures.succeedsOnThird 10 options
           Demo.start (snd (fst run)) (snd run) "unicorn"%string).
  vm_compute. reflexivity.
Defined.

(** A run with a signal that is not aborted. *)
Lemma invoked_at_least_once_witness :
  let options := Demo.options (Some (of_Z 0)) None None None None true in
  let run := pRetry isNet Demo.host 10 Demo.alwaysFails options Demo.start in
  exists x rest, snd run = EvInput 1 x :: rest.
Proof.
  intros options run.
  apply (invoked_at_least_once isNet Demo.host Demo.alwaysFails 9 options Demo.start
           (fst (fst run)) (snd (fst run)) (snd run)).
  - reflexivity.
  - intros sg Hsg. injection Hsg as <-. reflexivity.
  - vm_compute. reflexivity.
Defined.

(** A call after the user has cancelled. *)
Lemma aborted_before_call_witness :
  let options := Demo.options (Some (of_Z 5)) None None None None true in
  let w := Demo.abort (new_Error "shutdown") Demo.start in
  pRetry isNet Demo.host 10 Demo.alwaysFails options w
  = (Throw (reason (Demo.controller w)), w, []).
Proof.
  intros options w.
  apply (aborted_before_call isNet Demo.host Demo.alwaysFails 10 options w Demo.controller).
  - intros r Hr. injection Hr as <-. reflexivity.
  - reflexivity.
  - reflexivity.
Defined.

(** A string is thrown. *)
Lemma non_error_reported_wrapped_witness :
  let options := Demo.options (Some (of_Z 2)) None (Some (of_Z 10)) None None false in
  let run := pRetry isNet Demo.host 10 Demo.throwsString options Demo.start in
  exists h post',
    skipn 1 (snd run)
    = EvOnFailedAttempt
        (createRetryContext
           (new_TypeError ("Non-error was thrown: " ++ double_quote ++ "foo"
                           ++ double_quote ++ ". You should only throw errors."))
           1 (retries (merge options))) h :: post'.
Proof.
  intros options run.
  apply (non_error_reported_wrapped isNet Demo.host Demo.throwsString 10 options Demo.start
           (fst (fst run)) (snd (fst run)) (snd run) (firstn 0 (snd run)) 1
           (VString "foo") "foo"%string (skipn 1 (snd run))).
  - vm_compute. reflexivity.
  - vm_compute. reflexivity.
  - reflexivity.
  - reflexivity.
Defined.

(** Two failures, then success, with five retries. *)
Lemma succeeds_after_failures_witness :
  let options := Demo.options (Some (of_Z 5)) None (Some (of_Z 10)) None None false in
  exists v pre w0 w',
    pRetry isNet Demo.host 10 Fixtures.succeedsOnThird options Demo.start
    = (Normal v, w', pre ++ [EvInput 3 None])
    /\ Fixtures.succeedsOnThird 3 w0 = (Fulfilled v, w')
    /\ invocations (pre ++ [EvInput 3 None]) = Z.to_nat 3.
Proof.
  intros options.
  apply (succeeds_after_failures isNet Demo.host Fixtures.succeedsOnThird 5 3 10 options
           Demo.start).
  - reflexivity.
  - lia.
  - reflexivity.
  - reflexivity.
  - intros c w0. eexists. reflexivity.
  - intros c w0. eexists. reflexivity.
  - intros k w0 Hk. unfold Fixtures.succeedsOnThird.
    replace (k =? 3) with false by (symmetry; apply Z.eqb_neq; lia).
    eexists _, _, _. repeat split; reflexivity.
  - intros w0. eexists _, _. reflexivity.
  - vm_compute. lia.
Defined.

(** [maxRetryTime: 0] with five retries. *)
Lemma no_time_no_retry_witness :
  let options := Fixtures.options nat (Some (of_Z 5)) None None None (Some (of_Z 0))
                   None None in
  let run := pRetry isNet Fixtures.steadyHost 10 Fixtures.steadyFailure options 0%nat in
  (invocations (snd run) <= 1)%nat
  /\ forall pre ev post, snd run = pre ++ ev :: post ->
       (forall c answer, ev <> EvShouldRetry c answer)
       /\ (forall ms, ev <> EvSetTimeout ms).
Proof.
  intros options run.
  apply (no_time_no_retry isNet Fixtures.steadyHost Fixtures.steadyFailure 10 options 0%nat
           (fst (fst run)) (snd (fst run)) (snd run)).
  - reflexivity.
  - intros w1. simpl. lia.
  - vm_compute. reflexivity.
Defined.

(** The operation finds the controller aborted on its second attempt. *)
Lemma throwIfAborted_stops_run_witness :
  let options := Demo.options (Some (of_Z 5)) None (Some (of_Z 10)) None None false in
  let run := pRetry isNet Demo.host 10 Fixtures.checksSignal options Demo.start in
  let sg := {| aborted := true; reason := new_Error "shutdown" |} in
  skipn 5 (snd run) = [] /\ fst (fst run) = Throw (AbortError.fromSignal sg)
  /\ aborted sg = true /\ cause_of (AbortError.fromSignal sg) = Some (reason sg).
Proof.
  intros options run sg.
  apply (throwIfAborted_stops_run isNet Demo.host Fixtures.checksSignal 10 options Demo.start
           (fst (fst run)) (snd (fst run)) (snd run) (firstn 4 (snd run)) 2
           (AbortError.fromSignal sg) sg (skipn 5 (snd run))).
  - vm_compute. reflexivity.
  - vm_compute. reflexivity.
  - reflexivity.
Defined.

(** The third delay with [minTimeout: 100], the default factor and a random
    number of one half: six hundred milliseconds, between four and eight
    hundred. *)
Lemma jittered_delay_bounds_witness :
  let options := merge (Fixtures.options Demo.World None None (Some (of_Z 100)) None None
                          (Some true) None) in
  exists D,
    calculateDelay Demo.host 3 options Demo.start = (Normal D, Demo.start, [])
    /\ (plainDelay Demo.host options 3 <=? D)%js = true
    /\ (D <=? Math_min (Math_round (of_Z 2 * Fin (inject_Z 100) * of_Z 4))
                (maxTimeout options))%js = true.
Proof.
  intros options.
  apply (jittered_delay_bounds Demo.host options 3 Demo.start Demo.start (1 # 2)
           (inject_Z 100) (inject_Z 200) (of_Z 4)).
  - reflexivity.
  - reflexivity.
  - unfold Qle. simpl. lia.
  - reflexivity.
  - reflexivity.
  - vm_compute. reflexivity.
  - vm_compute. reflexivity.
  - vm_compute. reflexivity.
  - vm_compute. reflexivity.
  - reflexivity.
  - discriminate.
Defined.

(** A wrapped function that resolves at once. *)
Lemma makeRetriable_transparent_witness :
  let options := Demo.options (Some (of_Z 5)) None None None None true in
  makeRetriable isNet Demo.host Fixtures.greets options 10 "world"%string Demo.start
  = (Normal "hello world"%string, Demo.tick 5 Demo.start, [EvInput 1 None]).
Proof.
  intros options.
  apply (makeRetriable_transparent isNet Demo.host Fixtures.greets options 9
           "world"%string Demo.start "hello world"%string (Demo.tick 5 Demo.start)).
  - reflexivity.
  - intros sg Hsg. injection Hsg as <-. reflexivity.
  - reflexivity.
  - intros sg Hsg. injection Hsg as <-. reflexivity.
Defined.

(** [retries: Infinity], run for seven passes. *)
Lemma infinite_retries_never_settle_witness :
  let options := Demo.options (Some PosInf) None (Some (of_Z 10)) None None false in
  exists w' tr,
    pRetry isNet Demo.host 7 Demo.alwaysFails options Demo.start = (OutOfFuel, w', tr)
    /\ invocations tr = 7%nat.
Proof.
  intros options.
  apply (infinite_retries_never_settle isNet Demo.host Demo.alwaysFails 7 options Demo.start).
  - reflexivity.
  - reflexivity.
  - reflexivity.
  - intros c w0. eexists. reflexivity.
  - intros c w0. eexists. reflexivity.
  - intros k w0. eexists _, _, _. repeat split; reflexivity.
Defined.

(** A delay of 80 milliseconds cut to the 60 that are left of a budget of
    100. *)
Lemma timer_within_time_budget_witness :
  let options := Fixtures.options nat (Some (of_Z 5)) None (Some (of_Z 80)) None
                   (Some (of_Z 100)) None None in
  ((of_Z 100 - (of_Z 40 - of_Z 0))%js <=? maxRetryTime (merge options))%js = true.
Proof.
  intros options.
  pose (run := pRetry isNet Fixtures.steadyHost 10 Fixtures.steadyFailure options 0%nat).
  apply (timer_within_time_budget isNet Fixtures.steadyHost Fixtures.steadyFailure 10
           options 0%nat (fst (fst run)) (snd (fst run)) (snd run) (firstn 3 (snd run))
           (of_Z 100 - (of_Z 40 - of_Z 0))%js (skipn 4 (snd run))).
  - intros w1. simpl. lia.
  - vm_compute. reflexivity.
  - vm_compute. reflexivity.
Defined.
End MoreRuns.
